(** * Alphabet converter: forward (Latin -> symbols) and reverse (symbols -> Latin)

    Shallow embedding of [alphabet_converter_Version2.py] and
    [alphabet_reverse_Version2.py].

    A Python [str] is a sequence of Unicode code points; it is modelled as a
    list of integers.  Dictionaries whose iteration order is observable
    ([MAPPING], [FORWARD], [REVERSE]) are association lists in insertion
    order; the caller-supplied [preferences] dictionary is only ever looked
    up and is a finite map.  The two [while] loops are explicit state-passing
    loops over the index [i] and the accumulator [out]. *)

From Stdlib Require Import ZArith Ascii String.
From stdpp Require Import base option list sorting gmap.

Local Open Scope Z_scope.

(** ** Strings *)

Abbreviation str := (list Z).

(** The source files are UTF-8 text.  String literals are written here as they
    appear in the source and decoded to code points. *)
Fixpoint utf8_decode (bs : list Z) : str :=
  match bs with
  | [] => []
  | b0 :: r0 =>
      if b0 <? 128 then b0 :: utf8_decode r0
      else if b0 <? 224 then
        match r0 with
        | b1 :: r1 =>
            Z.lor (Z.shiftl (Z.land b0 31) 6) (Z.land b1 63) :: utf8_decode r1
        | _ => []
        end
      else if b0 <? 240 then
        match r0 with
        | b1 :: b2 :: r2 =>
            Z.lor (Z.shiftl (Z.land b0 15) 12)
              (Z.lor (Z.shiftl (Z.land b1 63) 6) (Z.land b2 63))
              :: utf8_decode r2
        | _ => []
        end
      else
        match r0 with
        | b1 :: b2 :: b3 :: r3 =>
            Z.lor (Z.shiftl (Z.land b0 7) 18)
              (Z.lor (Z.shiftl (Z.land b1 63) 12)
                 (Z.lor (Z.shiftl (Z.land b2 63) 6) (Z.land b3 63)))
              :: utf8_decode r3
        | _ => []
        end
  end.

Definition u (lit : string) : str :=
  utf8_decode (map (fun a => Z.of_N (N_of_ascii a)) (list_ascii_of_string lit)).

(** Equality and lexicographic order on strings, as Python compares [str]
    values: code point by code point, a proper prefix being smaller. *)
Fixpoint str_eqb (a b : str) : bool :=
  match a, b with
  | [], [] => true
  | x :: a', y :: b' => (x =? y) && str_eqb a' b'
  | _, _ => false
  end.

Fixpoint str_ltb (a b : str) : bool :=
  match a, b with
  | _, [] => false
  | [], _ :: _ => true
  | x :: a', y :: b' => (x <? y) || ((x =? y) && str_ltb a' b')
  end.

Definition str_leb (a b : str) : bool := negb (str_ltb b a).

(** [str.upper()] maps every code point through the Unicode full uppercase
    mapping and concatenates the results.  Both converters only ever compare
    an uppercased string against the keys of the table, which are ASCII, so
    the mapping is written out exactly for every code point whose uppercase
    form consists of ASCII characters; any other code point is sent to a
    non-ASCII code point, for which the code point itself stands. *)
Definition upper_cp (c : Z) : str :=
  if (97 <=? c) && (c <=? 122) then [c - 32]
  else if c =? 223 then [83; 83]            (* U+00DF -> SS *)
  else if c =? 305 then [73]                (* U+0131 dotless i -> I *)
  else if c =? 383 then [83]                (* U+017F long s -> S *)
  else if c =? 64256 then [70; 70]          (* U+FB00 -> FF *)
  else if c =? 64257 then [70; 73]          (* U+FB01 -> FI *)
  else if c =? 64258 then [70; 76]          (* U+FB02 -> FL *)
  else if c =? 64259 then [70; 70; 73]      (* U+FB03 -> FFI *)
  else if c =? 64260 then [70; 70; 76]      (* U+FB04 -> FFL *)
  else if c =? 64261 then [83; 84]          (* U+FB05 -> ST *)
  else if c =? 64262 then [83; 84]          (* U+FB06 -> ST *)
  else [c].

Definition upper (s : str) : str := flat_map upper_cp s.

(** [str.lower()], exact on every code point whose uppercase form is a key of
    the table (the ASCII letters, U+0131 and U+017F). *)
Definition lower_cp (c : Z) : str :=
  if (65 <=? c) && (c <=? 90) then [c + 32] else [c].

Definition lower (s : str) : str := flat_map lower_cp s.

(** ** Dictionaries in insertion order *)

Definition dict (V : Type) : Type := list (str * V).

Fixpoint dict_get {V} (k : str) (d : dict V) : option V :=
  match d with
  | [] => None
  | (k', v) :: d' => if str_eqb k' k then Some v else dict_get k d'
  end.

Definition dict_keys {V} (d : dict V) : list str := map fst d.

(** [sorted] is a stable sort: an element is placed after every element that
    is strictly before it in the order, and before the others. *)
Section Sorted.
Context {A : Type} (before : A -> A -> bool).

Fixpoint sorted_insert (x : A) (l : list A) : list A :=
  match l with
  | [] => [x]
  | y :: l' => if before y x then y :: sorted_insert x l' else x :: y :: l'
  end.

Definition sorted_with (l : list A) : list A := foldr sorted_insert [] l.
End Sorted.

(** [sorted(options)] *)
Definition sorted (l : list str) : list str := sorted_with str_ltb l.

(** [sorted(keys, key=len, reverse=True)] *)
Definition longer_first (y x : str) : bool := (length x <? length y)%nat.

Definition sorted_len_reverse (l : list str) : list str :=
  sorted_with longer_first l.

(** ** alphabet_converter_Version2.py *)

Definition MAPPING : dict str :=
  [ (u "CH", u "T");
    (u "SH", u "ﾚ");
    (u "A", u "V́");
    (u "B", u "Г");
    (u "C", u "ヲ");
    (u "D", u "コ");
    (u "E", u "H");
    (u "F", u "∀");
    (u "G", u "7");
    (u "H", u "X");
    (u "I", u "И");
    (u "J", u "ﾚ̀");
    (u "K", u "ヲ");
    (u "L", u "Z");
    (u "M", u "П");
    (u "N", u "L");
    (u "O", u "V̀");
    (u "P", u "F");
    (u "Q", u "ヲ");
    (u "R", u "Z");
    (u "S", u "Λ");
    (u "T", u "E");
    (u "U", u "V̄");
    (u "V", u "V");
    (u "W", u "V");
    (u "X", u "A");
    (u "Y", u "K");
    (u "Z", u "A") ].

(** One iteration of the [while] loop of [convert_text], from the state
    [(i, out)] with [i < n].  [None] stands for an [IndexError]. *)
Definition convert_single (s : str) (i : nat) (out : list str)
  : option (nat * list str) :=
  ch ← s !! i;
  let up := upper [ch] in
  match dict_get up MAPPING with
  | Some sym => Some ((i + 1)%nat, out ++ [sym])
  | None => Some ((i + 1)%nat, out ++ [[ch]])
  end.

Definition convert_iter (s : str) (i : nat) (out : list str)
  : option (nat * list str) :=
  let n := length s in
  if bool_decide (i + 1 < n)%nat then
    a ← s !! i;
    b ← s !! (i + 1)%nat;
    let two := upper [a; b] in
    match dict_get two MAPPING with
    | Some sym => Some ((i + 2)%nat, out ++ [sym])
    | None => convert_single s i out
    end
  else convert_single s i out.

(** The loop, with a bound on the number of iterations; [None] when the bound
    is exhausted or an iteration raises. *)
Fixpoint convert_loop (fuel : nat) (s : str) (i : nat) (out : list str)
  : option (list str) :=
  if bool_decide (i < length s)%nat then
    match fuel with
    | O => None
    | S fuel' =>
        st ← convert_iter s i out;
        convert_loop fuel' s st.1 st.2
    end
  else Some out.

Definition convert_text (s : str) : option str :=
  out ← convert_loop (length s) s 0 [];
  Some (concat out).

(** ** alphabet_reverse_Version2.py *)

Definition FORWARD : dict str :=
  [ (u "CH", u "T");
    (u "SH", u "ﾚ");
    (u "A", u "V́");
    (u "B", u "Г");
    (u "C", u "ヲ");
    (u "D", u "コ");
    (u "E", u "H");
    (u "F", u "∀");
    (u "G", u "7");
    (u "H", u "X");
    (u "I", u "И");
    (u "J", u "ﾚ̀");
    (u "K", u "ヲ");
    (u "L", u "Z");
    (u "M", u "П");
    (u "N", u "L");
    (u "O", u "V̀");
    (u "P", u "F");
    (u "Q", u "ヲ");
    (u "R", u "Z");
    (u "S", u "Λ");
    (u "T", u "E");
    (u "U", u "V̄");
    (u "V", u "V");
    (u "W", u "V");
    (u "X", u "A");
    (u "Y", u "K");
    (u "Z", u "A") ].

Definition PREFERENCES : gmap str str :=
  <[u "V" := u "V"]> (<[u "A" := u "Z"]> (<[u "Z" := u "L"]>
    (<[u "ヲ" := u "K"]> ∅))).

(** [rev.setdefault(sym, []).append(latin)] *)
Fixpoint setdefault_append (rev : dict (list str)) (sym latin : str)
  : dict (list str) :=
  match rev with
  | [] => [(sym, [latin])]
  | (k, v) :: rev' =>
      if str_eqb k sym then (k, v ++ [latin]) :: rev'
      else (k, v) :: setdefault_append rev' sym latin
  end.

Definition build_reverse_map (forward_map : dict str) : dict (list str) :=
  fold_left (fun rev kv => setdefault_append rev kv.2 kv.1) forward_map [].

Definition REVERSE : dict (list str) :=
  Eval vm_compute in build_reverse_map FORWARD.

Definition SYMBOLS_SORTED : list str :=
  Eval vm_compute in sorted_len_reverse (dict_keys REVERSE).

(** [preferences] defaults to [None]; [None] and the empty dictionary are both
    falsy.  The result [None] is Python's [None]; [sorted(options)[0]] is
    only reached with at least two options. *)
Definition choose_latin_for_symbol (symbol : str)
    (preferences : option (gmap str str)) : option str :=
  match dict_get symbol REVERSE with
  | None | Some [] => None
  | Some [only] => Some only
  | Some options =>
      match preferences ≫= (.!! symbol) with
      | Some p =>
          if existsb (str_eqb p) options then Some p
          else head (sorted options)
      | None => head (sorted options)
      end
  end.

(** [s.startswith(sym, i)] *)
Fixpoint prefixb (p s : str) : bool :=
  match p, s with
  | [], _ => true
  | x :: p', y :: s' => (x =? y) && prefixb p' s'
  | _ :: _, [] => false
  end.

Definition startswith (s sym : str) (i : nat) : bool := prefixb sym (drop i s).

(** The [for sym in SYMBOLS_SORTED] loop: [Some] is the state at [break],
    [None] is a loop that ran to its end with [matched] still [False]. *)
Fixpoint for_sym (syms : list str) (s : str)
    (preferences : option (gmap str str)) (i : nat) (out : list str)
  : option (nat * list str) :=
  match syms with
  | [] => None
  | sym :: syms' =>
      if startswith s sym i then
        match choose_latin_for_symbol sym preferences with
        | None => Some ((i + length sym)%nat, out ++ [sym])
        | Some latin => Some ((i + length sym)%nat, out ++ [latin])
        end
      else for_sym syms' s preferences i out
  end.

Definition reverse_iter (s : str) (preferences : option (gmap str str))
    (i : nat) (out : list str) : option (nat * list str) :=
  match for_sym SYMBOLS_SORTED s preferences i out with
  | Some st => Some st
  | None => ch ← s !! i; Some ((i + 1)%nat, out ++ [[ch]])
  end.

Fixpoint reverse_loop (fuel : nat) (s : str)
    (preferences : option (gmap str str)) (i : nat) (out : list str)
  : option (list str) :=
  if bool_decide (i < length s)%nat then
    match fuel with
    | O => None
    | S fuel' =>
        st ← reverse_iter s preferences i out;
        reverse_loop fuel' s preferences st.1 st.2
    end
  else Some out.

Definition reverse_convert (s : str) (preferences : option (gmap str str))
  : option str :=
  out ← reverse_loop (length s) s preferences 0 [];
  Some (concat out).

(** ** Notions used in the statements *)

(** What the single-character branch appends for [ch]. *)
Definition single_piece (ch : Z) : str :=
  match dict_get (upper [ch]) MAPPING with
  | Some sym => sym
  | None => [ch]
  end.

(** The pieces appended by the forward loop while it consumes the remaining
    input [t]. *)
Fixpoint convert_pieces (t : str) : list str :=
  match t with
  | [] => []
  | a :: r =>
      match r with
      | b :: r' =>
          match dict_get (upper [a; b]) MAPPING with
          | Some sym => sym :: convert_pieces r'
          | None => single_piece a :: convert_pieces r
          end
      | [] => [single_piece a]
      end
  end.

(** What one match appends to [out]. *)
Definition emitted (sym : str) (preferences : option (gmap str str)) : str :=
  match choose_latin_for_symbol sym preferences with
  | None => sym
  | Some latin => latin
  end.

(** The symbol at which the [for] loop breaks, if any. *)
Definition matched_symbol (t : str) : option str :=
  find (fun sym => prefixb sym t) SYMBOLS_SORTED.

(** [reverse_run preferences t ps]: consuming the remaining input [t], the
    reverse loop appends the pieces [ps]. *)
Inductive reverse_run (preferences : option (gmap str str))
  : str -> list str -> Prop :=
| run_end : reverse_run preferences [] []
| run_symbol c t sym ps :
    matched_symbol (c :: t) = Some sym ->
    reverse_run preferences (drop (length sym) (c :: t)) ps ->
    reverse_run preferences (c :: t) (emitted sym preferences :: ps)
| run_char c t ps :
    matched_symbol (c :: t) = None ->
    reverse_run preferences t ps ->
    reverse_run preferences (c :: t) ([c] :: ps).

(** A character is absent from the table when its uppercase form is not a
    key. *)
Definition unmapped (c : Z) : Prop := dict_get (upper [c]) MAPPING = None.

(** A character is mapped when its uppercase form is a key of the table. *)
Definition mapped (c : Z) : Prop := is_Some (dict_get (upper [c]) MAPPING).

(** The uppercase form of [c] is the single letter [k]. *)
Definition letter_of (c k : Z) : Prop := upper_cp c = [k] /\ 65 <= k <= 90.

Definition same_letter (c c' : Z) : Prop :=
  exists k, letter_of c k /\ letter_of c' k.

Definition is_upper_latin (c : Z) : bool := (65 <=? c) && (c <=? 90).

Definition is_token (k : str) : bool :=
  ((length k =? 1)%nat || (length k =? 2)%nat) && forallb is_upper_latin k.

Definition digraph_tokens (d : dict str) : list str :=
  List.filter (fun k => (length k =? 2)%nat) (dict_keys d).

Definition single_tokens (d : dict str) : list str :=
  List.filter (fun k => (length k =? 1)%nat) (dict_keys d).

(** The tokens the inverse mapping holds for [sym]. *)
Definition candidates (sym : str) : list str :=
  default [] (dict_get sym REVERSE).

Definition not_shorter (a b : str) : Prop := (length b <= length a)%nat.

Definition has_length (n : nat) (x : str) : bool := (length x =? n)%nat.

(** Forward and then reverse conversion. *)
Definition round_trip (L : str) (preferences : option (gmap str str))
  : option str :=
  y ← convert_text L; reverse_convert y preferences.

(** The letter that the fallback choice gives back for a letter: the smallest
    letter sharing its symbol. *)
Definition fallback_letter (c : Z) : Z :=
  if (c =? 75) || (c =? 81) then 67        (* K, Q -> C *)
  else if c =? 82 then 76                  (* R -> L *)
  else if c =? 87 then 86                  (* W -> V *)
  else if c =? 90 then 88                  (* Z -> X *)
  else c.

(** A text is clean when it does not start with one of the combining marks,
    which only occur as the second code point of a symbol. *)
Definition clean (t : str) : Prop :=
  match t with
  | [] => True
  | c :: _ => c <> 768 /\ c <> 769 /\ c <> 772
  end.

(** The uppercase letters that are the fallback choice for their symbol. *)
Definition unambiguous_upper (c : Z) : Prop :=
  65 <= c <= 90 /\ c <> 75 /\ c <> 81 /\ c <> 82 /\ c <> 87 /\ c <> 90.

(** ** Notions used in the further properties *)

(** The tokens that a forward map sends to [sym], in the order of the map. *)
Definition tokens_of (sym : str) (forward_map : dict str) : list str :=
  map fst (List.filter (fun kv => str_eqb kv.2 sym) forward_map).

(** Two preferences arguments that give the same answer for the four
    ambiguous symbols. *)
Definition agree_on_ambiguous (p p' : option (gmap str str)) : Prop :=
  Forall (fun sym => p ≫= (.!! sym) = p' ≫= (.!! sym))
         [u "ヲ"; u "Z"; u "V"; u "A"].

(** The dictionary comprehension of [interactive]:
    [{sym: opts for sym, opts in REVERSE.items() if len(opts) > 1}]. *)
Definition ambiguities : dict (list str) :=
  List.filter (fun kv => (1 <? length kv.2)%nat) REVERSE.

(** [PREFERENCES.get(sym, "(no preference)")], the value [interactive] reports
    as chosen for [sym]. *)
Definition chosen (sym : str) : str :=
  default (u "(no preference)") (PREFERENCES !! sym).

(** The result [interactive] prints for the line [text]. *)
Definition interactive_result (text : str) : option str :=
  reverse_convert text (Some PREFERENCES).

(** A cut between [s1] and [s2] does not fall inside a digraph: the last
    character of [s1] and the first of [s2] do not form a key together. *)
Definition splittable (s1 s2 : str) : Prop :=
  forall a b, last s1 = Some a -> head s2 = Some b ->
              dict_get (upper [a; b]) MAPPING = None.

(** Concatenation of two optional strings. *)
Definition opt_app (a b : option str) : option str :=
  x ← a; y ← b; Some (x ++ y).

(** The keys matched by the forward loop while it consumes [t]: the uppercase
    form of a pair that is a key, and otherwise of a single character. *)
Fixpoint tokenize (t : str) : list str :=
  match t with
  | [] => []
  | a :: r =>
      match r with
      | b :: r' =>
          match dict_get (upper [a; b]) MAPPING with
          | Some _ => upper [a; b] :: tokenize r'
          | None => upper [a] :: tokenize r
          end
      | [] => [upper [a]]
      end
  end.

(** What the reverse converter gives back for the symbol of the key [k]. *)
Definition resolve (preferences : option (gmap str str)) (k : str) : str :=
  match dict_get k MAPPING with
  | Some sym => emitted sym preferences
  | None => k
  end.

(** The letter that the default preference table gives back for a letter. *)
Definition pref_letter (c : Z) : Z :=
  if (c =? 67) || (c =? 81) then 75        (* C, Q -> K *)
  else if c =? 82 then 76                  (* R -> L *)
  else if c =? 87 then 86                  (* W -> V *)
  else if c =? 88 then 90                  (* X -> Z *)
  else c.

Definition pref_key (k : str) : str :=
  match k with
  | [c] => [pref_letter c]
  | _ => k
  end.

(** Replaces Q by K, R by L, W by V and Z by X, in either case. *)
Definition merge_letter (c : Z) : Z :=
  if (c =? 81) || (c =? 113) then 75
  else if (c =? 82) || (c =? 114) then 76
  else if (c =? 87) || (c =? 119) then 86
  else if (c =? 90) || (c =? 122) then 88
  else c.

(** ** The tables, code point by code point *)

Lemma MAPPING_codepoints :
  MAPPING =
  [ ([67; 72], [84]); ([83; 72], [65434]); ([65], [86; 769]); ([66], [1043]);
    ([67], [12530]); ([68], [12467]); ([69], [72]); ([70], [8704]);
    ([71], [55]); ([72], [88]); ([73], [1048]); ([74], [65434; 768]);
    ([75], [12530]); ([76], [90]); ([77], [1055]); ([78], [76]);
    ([79], [86; 768]); ([80], [70]); ([81], [12530]); ([82], [90]);
    ([83], [923]); ([84], [69]); ([85], [86; 772]); ([86], [86]);
    ([87], [86]); ([88], [65]); ([89], [75]); ([90], [65]) ].
Proof. reflexivity. Qed.

Lemma FORWARD_MAPPING : FORWARD = MAPPING.
Proof. reflexivity. Qed.

Lemma REVERSE_codepoints :
  REVERSE =
  [ ([84], [[67; 72]]); ([65434], [[83; 72]]); ([86; 769], [[65]]);
    ([1043], [[66]]); ([12530], [[67]; [75]; [81]]); ([12467], [[68]]);
    ([72], [[69]]); ([8704], [[70]]); ([55], [[71]]); ([88], [[72]]);
    ([1048], [[73]]); ([65434; 768], [[74]]); ([90], [[76]; [82]]);
    ([1055], [[77]]); ([76], [[78]]); ([86; 768], [[79]]); ([70], [[80]]);
    ([923], [[83]]); ([69], [[84]]); ([86; 772], [[85]]);
    ([86], [[86]; [87]]); ([65], [[88]; [90]]); ([75], [[89]]) ].
Proof. reflexivity. Qed.

Lemma SYMBOLS_SORTED_codepoints :
  SYMBOLS_SORTED =
  [ [86; 769]; [65434; 768]; [86; 768]; [86; 772];
    [84]; [65434]; [1043]; [12530]; [12467]; [72]; [8704]; [55]; [88];
    [1048]; [90]; [1055]; [76]; [70]; [923]; [69]; [86]; [65]; [75] ].
Proof. reflexivity. Qed.

(** ** The forward loop as a function of the remaining input *)

Lemma convert_single_piece s i out ch :
  s !! i = Some ch ->
  convert_single s i out = Some (S i, out ++ [single_piece ch]).
Proof.
  intros Hi. unfold convert_single, single_piece. rewrite Hi. cbn [mbind option_bind].
  replace (i + 1)%nat with (S i) by lia.
  destruct (dict_get (upper [ch]) MAPPING); reflexivity.
Qed.

Lemma convert_loop_pieces fuel : forall s i out,
  (length s - i <= fuel)%nat ->
  convert_loop fuel s i out = Some (out ++ convert_pieces (drop i s)).
Proof.
  induction fuel as [|fuel IH]; intros s i out Hfuel; cbn [convert_loop];
    case_bool_decide as Hi;
    try (rewrite drop_ge by lia; cbn; rewrite app_nil_r; reflexivity);
    [lia|].
  destruct (lookup_lt_is_Some_2 s i Hi) as [a Ha].
  rewrite (drop_S _ _ _ Ha). unfold convert_iter.
  case_bool_decide as Hi1.
  - assert (Hb : is_Some (s !! S i)) by (apply lookup_lt_is_Some_2; lia).
    destruct Hb as [b Hb]. rewrite (drop_S _ _ _ Hb).
    replace (i + 1)%nat with (S i) by lia. rewrite Ha, Hb.
    cbn [mbind option_bind convert_pieces].
    destruct (dict_get (upper [a; b]) MAPPING) as [sym|].
    + cbn [mbind option_bind fst snd]. rewrite IH by lia.
      replace (i + 2)%nat with (S (S i)) by lia.
      rewrite <- app_assoc. reflexivity.
    + rewrite (convert_single_piece _ _ _ _ Ha).
      cbn [mbind option_bind fst snd]. rewrite IH by lia.
      rewrite (drop_S _ _ _ Hb), <- app_assoc. reflexivity.
  - rewrite (convert_single_piece _ _ _ _ Ha).
    cbn [mbind option_bind fst snd]. rewrite IH by lia.
    rewrite (drop_ge s (S i)) by lia. cbn. rewrite <- app_assoc. reflexivity.
Qed.

Lemma convert_text_pieces s :
  convert_text s = Some (concat (convert_pieces s)).
Proof.
  unfold convert_text. rewrite convert_loop_pieces by lia. reflexivity.
Qed.

(** ** The reverse loop as a relation on the remaining input *)

Lemma for_sym_find syms s preferences i out :
  for_sym syms s preferences i out =
  match find (fun sym => prefixb sym (drop i s)) syms with
  | Some sym => Some ((i + length sym)%nat, out ++ [emitted sym preferences])
  | None => None
  end.
Proof.
  induction syms as [|sym syms IH]; [reflexivity|].
  cbn [for_sym find]. unfold startswith.
  destruct (prefixb sym (drop i s)); [|exact IH].
  unfold emitted. destruct (choose_latin_for_symbol sym preferences); reflexivity.
Qed.

Lemma reverse_iter_matched s preferences i out :
  reverse_iter s preferences i out =
  match matched_symbol (drop i s) with
  | Some sym => Some ((i + length sym)%nat, out ++ [emitted sym preferences])
  | None => ch ← s !! i; Some (S i, out ++ [[ch]])
  end.
Proof.
  unfold reverse_iter, matched_symbol. rewrite for_sym_find.
  destruct (find _ SYMBOLS_SORTED); [reflexivity|].
  replace (i + 1)%nat with (S i) by lia. reflexivity.
Qed.

Lemma prefixb_length p : forall t, prefixb p t = true -> (length p <= length t)%nat.
Proof.
  induction p as [|x p IH]; intros [|y t] H; cbn in *; try lia; try discriminate.
  apply andb_prop in H as [_ H]. apply IH in H. lia.
Qed.

Lemma prefixb_app p t : prefixb p (p ++ t) = true.
Proof.
  induction p as [|x p IH]; [reflexivity|].
  cbn. rewrite Z.eqb_refl. exact IH.
Qed.

Lemma prefixb_take p : forall t, prefixb p t = true <-> take (length p) t = p.
Proof.
  induction p as [|x p IH]; intros [|y t]; cbn; try tauto; try (split; discriminate).
  rewrite andb_true_iff, Z.eqb_eq, IH. split.
  - intros [-> ->]. reflexivity.
  - intros [= -> Ht]. split; [reflexivity|exact Ht].
Qed.

Lemma SYMBOLS_SORTED_nonempty sym : In sym SYMBOLS_SORTED -> (1 <= length sym)%nat.
Proof.
  intros H. assert (HF : Forall (fun x : str => (1 <= length x)%nat) SYMBOLS_SORTED).
  { unfold SYMBOLS_SORTED. repeat constructor. }
  rewrite Forall_forall in HF. apply HF, list_elem_of_In, H.
Qed.

Lemma matched_symbol_bounds t sym :
  matched_symbol t = Some sym -> (1 <= length sym <= length t)%nat.
Proof.
  intros H. apply find_some in H as [Hin Hp]. split.
  - apply SYMBOLS_SORTED_nonempty, Hin.
  - apply prefixb_length, Hp.
Qed.

Lemma reverse_loop_run preferences t ps :
  reverse_run preferences t ps ->
  forall fuel s i out,
    t = drop i s -> (length s - i <= fuel)%nat ->
    reverse_loop fuel s preferences i out = Some (out ++ ps).
Proof.
  induction 1 as [|c t sym ps Hm _ IH|c t ps Hm _ IH]; intros fuel s i out Ht Hfuel.
  - assert (Hlen : (length (drop i s) = 0)%nat) by (rewrite <- Ht; reflexivity).
    rewrite length_drop in Hlen.
    destruct fuel; cbn [reverse_loop]; case_bool_decide; try lia;
      rewrite app_nil_r; reflexivity.
  - assert (Hlen : (length (drop i s) = S (length t))%nat) by (rewrite <- Ht; reflexivity).
    rewrite length_drop in Hlen.
    destruct fuel as [|fuel]; [lia|]. cbn [reverse_loop].
    case_bool_decide; [|lia].
    rewrite reverse_iter_matched, <- Ht, Hm. cbn [mbind option_bind fst snd].
    pose proof (matched_symbol_bounds _ _ Hm) as Hb.
    rewrite (IH fuel s (i + length sym)%nat).
    + rewrite <- app_assoc. reflexivity.
    + rewrite Ht, drop_drop. reflexivity.
    + lia.
  - assert (Hlen : (length (drop i s) = S (length t))%nat) by (rewrite <- Ht; reflexivity).
    rewrite length_drop in Hlen.
    destruct fuel as [|fuel]; [lia|]. cbn [reverse_loop].
    case_bool_decide as Hi; [|lia].
    destruct (lookup_lt_is_Some_2 s i Hi) as [a Ha].
    pose proof (drop_S _ _ _ Ha) as Hd. rewrite <- Ht in Hd. injection Hd as -> Hd.
    rewrite reverse_iter_matched, <- Ht, Hm, Ha. cbn [mbind option_bind fst snd].
    rewrite (IH fuel s (S i)); [|exact Hd|lia].
    rewrite <- app_assoc. reflexivity.
Qed.

Lemma reverse_convert_run preferences s ps :
  reverse_run preferences s ps ->
  reverse_convert s preferences = Some (concat ps).
Proof.
  intros H. unfold reverse_convert.
  rewrite (reverse_loop_run _ _ _ H (length s) s 0%nat []); [reflexivity..|lia].
Qed.

(** Every input has a run. *)
Lemma reverse_run_total preferences : forall n t,
  (length t <= n)%nat -> exists ps, reverse_run preferences t ps.
Proof.
  induction n as [|n IH]; intros [|c t] Hn; cbn in Hn; try lia;
    try (exists []; constructor).
  destruct (matched_symbol (c :: t)) as [sym|] eqn:Hm.
  - pose proof (matched_symbol_bounds _ _ Hm) as Hb.
    destruct (IH (drop (length sym) (c :: t))) as [ps Hps].
    { rewrite length_drop. cbn [length] in *. lia. }
    eexists. eapply run_symbol; eassumption.
  - destruct (IH t) as [ps Hps]; [lia|].
    eexists. eapply run_char; eassumption.
Qed.

(** ** Facts about strings, dictionaries and the case mappings *)

Lemma str_eqb_eq a : forall b, str_eqb a b = true <-> a = b.
Proof.
  induction a as [|x a IH]; intros [|y b]; cbn; try (split; (reflexivity || discriminate)).
  rewrite andb_true_iff, Z.eqb_eq, IH. split.
  - intros [-> ->]. reflexivity.
  - intros [= -> ->]. split; reflexivity.
Qed.

Lemma dict_get_In {V} k (d : dict V) v : dict_get k d = Some v -> In (k, v) d.
Proof.
  induction d as [|[k' v'] d IH]; cbn; [discriminate|].
  destruct (str_eqb k' k) eqn:E.
  - apply str_eqb_eq in E as ->. intros [= ->]. left. reflexivity.
  - intros H. right. exact (IH H).
Qed.

(** A property checked on the 26 code points [A]..[Z] holds of each. *)
Lemma forall_letters (P : Z -> bool) :
  forallb P (seqZ 65 26) = true -> forall k, 65 <= k <= 90 -> P k = true.
Proof.
  intros H k Hk. rewrite forallb_forall in H.
  apply H, list_elem_of_In, elem_of_seqZ. lia.
Qed.

(** The keys of the table: the two digraphs and the 26 letters. *)
Lemma MAPPING_keys k sym :
  dict_get k MAPPING = Some sym ->
  k = [67; 72] \/ k = [83; 72] \/ exists c, k = [c] /\ 65 <= c <= 90.
Proof.
  intros H. apply dict_get_In in H. vm_compute in H.
  repeat (destruct H as [H|H];
          [injection H as <- _;
           first [left; reflexivity
                 |right; left; reflexivity
                 |right; right; eexists; split; [reflexivity|lia]]|]).
  destruct H.
Qed.

Lemma MAPPING_letter c :
  65 <= c <= 90 -> exists sym, dict_get [c] MAPPING = Some sym.
Proof.
  intros Hc.
  pose proof (forall_letters (fun k => bool_decide (is_Some (dict_get [k] MAPPING)))
                eq_refl c Hc) as H.
  apply bool_decide_eq_true in H. exact H.
Qed.

Lemma upper_cp_nonempty c : upper_cp c <> [].
Proof. unfold upper_cp. repeat case_match; discriminate. Qed.

Lemma upper_single c : upper [c] = upper_cp c.
Proof. unfold upper. cbn. apply app_nil_r. Qed.

Lemma upper_pair a b : upper [a; b] = upper_cp a ++ upper_cp b.
Proof. unfold upper. cbn. rewrite app_nil_r. reflexivity. Qed.

Lemma upper_cp_letter k : 65 <= k <= 90 -> upper_cp k = [k].
Proof.
  intros Hk.
  pose proof (forall_letters (fun k => str_eqb (upper_cp k) [k]) eq_refl k Hk) as H.
  apply str_eqb_eq in H. exact H.
Qed.

(** The code points whose uppercase form is a single letter [A]..[Z]. *)
Lemma upper_cp_letter_inv c k :
  upper_cp c = [k] -> 65 <= k <= 90 ->
  c = k \/ c = k + 32 \/ (c = 305 /\ k = 73) \/ (c = 383 /\ k = 83).
Proof.
  unfold upper_cp. intros H Hk.
  repeat (case_match; [try discriminate H|]).
  all: try (injection H as <-).
  all: repeat match goal with
         | E : _ && _ = true |- _ => apply andb_prop in E as [? ?]
         | E : (_ <=? _) = true |- _ => apply Z.leb_le in E
         | E : (_ =? _) = true |- _ => apply Z.eqb_eq in E
         end.
  all: lia.
Qed.

(** ** Termination and totality *)

Lemma convert_iter_advance s i out :
  (i < length s)%nat ->
  exists i' out', convert_iter s i out = Some (i', out') /\
                  (i < i' <= length s)%nat.
Proof.
  intros Hi. destruct (lookup_lt_is_Some_2 s i Hi) as [a Ha].
  unfold convert_iter. case_bool_decide as Hi1.
  - assert (Hb : is_Some (s !! (i + 1)%nat)) by (apply lookup_lt_is_Some_2; lia).
    destruct Hb as [b Hb]. rewrite Ha, Hb. cbn [mbind option_bind].
    destruct (dict_get (upper [a; b]) MAPPING).
    + eexists _, _. split; [reflexivity|lia].
    + rewrite (convert_single_piece _ _ _ _ Ha).
      eexists _, _. split; [reflexivity|lia].
  - rewrite (convert_single_piece _ _ _ _ Ha).
    eexists _, _. split; [reflexivity|lia].
Qed.

Lemma reverse_iter_advance s preferences i out :
  (i < length s)%nat ->
  exists i' out', reverse_iter s preferences i out = Some (i', out') /\
                  (i < i' <= length s)%nat.
Proof.
  intros Hi. rewrite reverse_iter_matched.
  destruct (matched_symbol (drop i s)) as [sym|] eqn:Hm.
  - apply matched_symbol_bounds in Hm. rewrite length_drop in Hm.
    eexists _, _. split; [reflexivity|lia].
  - destruct (lookup_lt_is_Some_2 s i Hi) as [a Ha]. rewrite Ha.
    eexists _, _. split; [reflexivity|lia].
Qed.

(** C9: both converters return a string on every input, for every
    preferences argument (absent, empty, partial or full), and every iteration
    of either loop succeeds and moves the position forward by at least one
    character without passing the end of the input. *)
Theorem converters_total :
  (forall s, exists r, convert_text s = Some r) /\
  (forall s preferences, exists r, reverse_convert s preferences = Some r) /\
  (forall s i out, (i < length s)%nat ->
     exists i' out', convert_iter s i out = Some (i', out') /\
                     (i < i' <= length s)%nat) /\
  (forall s preferences i out, (i < length s)%nat ->
     exists i' out', reverse_iter s preferences i out = Some (i', out') /\
                     (i < i' <= length s)%nat).
Proof.
  split; [|split; [|split]].
  - intros s. rewrite convert_text_pieces. eexists. reflexivity.
  - intros s preferences.
    destruct (reverse_run_total preferences (length s) s) as [ps Hps]; [lia|].
    rewrite (reverse_convert_run _ _ _ Hps). eexists. reflexivity.
  - apply convert_iter_advance.
  - apply reverse_iter_advance.
Qed.

Lemma converters_total_witness :
  (exists i' out', convert_iter [83; 72; 55] 0 [] = Some (i', out') /\
                   (0 < i' <= 3)%nat) /\
  (exists i' out', reverse_iter [86; 769; 55] None 0 [] = Some (i', out') /\
                   (0 < i' <= 3)%nat).
Proof.
  split.
  - apply (proj1 (proj2 (proj2 converters_total)) [83; 72; 55] 0%nat []).
    cbn. lia.
  - apply (proj2 (proj2 (proj2 converters_total)) [86; 769; 55] None 0%nat []).
    cbn. lia.
Defined.

(** ** Pass-through of unmapped characters *)

Lemma unmapped_pair a b :
  unmapped a -> unmapped b -> dict_get (upper [a; b]) MAPPING = None.
Proof.
  unfold unmapped. rewrite !upper_single, upper_pair. intros Ha Hb.
  destruct (dict_get (upper_cp a ++ upper_cp b) MAPPING) as [sym|] eqn:E;
    [|reflexivity].
  pose proof (upper_cp_nonempty a) as Na. pose proof (upper_cp_nonempty b) as Nb.
  apply MAPPING_keys in E.
  assert (Hlen : (length (upper_cp a ++ upper_cp b) <= 2)%nat).
  { destruct E as [E|[E|(c & E & _)]]; rewrite E; cbn; lia. }
  rewrite length_app in Hlen.
  destruct (upper_cp a) as [|x ua]; [congruence|].
  destruct (upper_cp b) as [|y ub]; [congruence|].
  destruct ua; [|cbn in Hlen; lia]. destruct ub; [|cbn in Hlen; lia].
  cbn in E. destruct E as [E|[E|(c & E & _)]]; try discriminate E;
    injection E as -> ->; vm_compute in Ha; discriminate Ha.
Qed.

Lemma convert_pieces_unmapped x :
  Forall unmapped x -> convert_pieces x = map (fun c => [c]) x.
Proof.
  induction 1 as [|a r Ha Hr IH]; [reflexivity|].
  cbn [convert_pieces map]. unfold single_piece. rewrite Ha.
  destruct Hr as [|b r' Hb Hr']; [reflexivity|].
  rewrite (unmapped_pair _ _ Ha Hb), IH. reflexivity.
Qed.

(** C7: a string made only of characters absent from the table is returned
    unchanged by the forward converter. *)
Theorem convert_text_passthrough x :
  Forall unmapped x -> convert_text x = Some x.
Proof.
  intros Hx. rewrite convert_text_pieces, (convert_pieces_unmapped _ Hx).
  f_equal. induction x as [|c x IH]; [reflexivity|].
  cbn. f_equal. apply IH. inversion Hx; assumption.
Qed.

Lemma convert_text_passthrough_witness :
  Forall unmapped (u "123-🎉 é!") /\
  convert_text (u "123-🎉 é!") = Some (u "123-🎉 é!").
Proof.
  assert (H : Forall unmapped (u "123-🎉 é!")).
  { repeat constructor. }
  split; [exact H|]. apply (convert_text_passthrough _ H).
Defined.

(** ** Digraphs before single letters *)

(** C5: whenever two characters remain and their uppercase form is a key, the
    iteration emits that key's symbol and consumes both characters, whatever
    the first character alone maps to; so "CH" in any casing becomes "T" and
    "SH" in any casing becomes the halfwidth katakana symbol, and "CH" is not
    converted as "C" followed by "H". *)
Theorem digraph_priority :
  (forall s i out a b sym,
     (i + 1 < length s)%nat ->
     s !! i = Some a -> s !! (i + 1)%nat = Some b ->
     dict_get (upper [a; b]) MAPPING = Some sym ->
     convert_iter s i out = Some ((i + 2)%nat, out ++ [sym])) /\
  Forall (fun s => convert_text s = Some (u "T"))
         [u "CH"; u "Ch"; u "cH"; u "ch"] /\
  Forall (fun s => convert_text s = Some (u "ﾚ"))
         [u "SH"; u "Sh"; u "sH"; u "sh"] /\
  (exists c h, convert_text (u "C") = Some c /\ convert_text (u "H") = Some h /\
               convert_text (u "CH") <> Some (c ++ h)).
Proof.
  split; [|split; [|split]].
  - intros s i out a b sym Hi Ha Hb Hsym. unfold convert_iter.
    rewrite bool_decide_eq_true_2 by exact Hi.
    rewrite Ha, Hb. cbn [mbind option_bind]. rewrite Hsym. reflexivity.
  - repeat constructor.
  - repeat constructor.
  - exists (u "ヲ"), (u "X"). repeat split. discriminate.
Qed.

Lemma digraph_priority_witness :
  convert_iter (u "aCh!") 1 [u "V́"] = Some (3%nat, [u "V́"; u "T"]).
Proof.
  apply (proj1 digraph_priority (u "aCh!") 1%nat [u "V́"] 67 104 (u "T"));
    [vm_compute; lia|reflexivity..].
Defined.

(** ** Case-insensitivity *)

Lemma mapped_letter c : mapped c -> exists k, letter_of c k.
Proof.
  intros [sym H]. rewrite upper_single in H. apply MAPPING_keys in H.
  destruct H as [H|[H|(k & H & Hk)]].
  - unfold upper_cp in H. repeat case_match; discriminate H.
  - unfold upper_cp in H. repeat case_match; discriminate H.
  - exists k. split; assumption.
Qed.

Lemma letter_single_piece c c' k :
  letter_of c k -> letter_of c' k -> single_piece c = single_piece c'.
Proof.
  intros [H Hk] [H' _]. unfold single_piece. rewrite !upper_single, H, H'.
  destruct (MAPPING_letter k Hk) as [sym ->]. reflexivity.
Qed.

Lemma same_letter_pieces : forall n s s',
  (length s <= n)%nat -> Forall2 same_letter s s' ->
  convert_pieces s = convert_pieces s'.
Proof.
  induction n as [|n IH]; intros s s' Hn HF;
    destruct HF as [|a a' r r2 (k & Ha & Ha') Hr]; try reflexivity;
    cbn [length] in Hn; [lia|].
  cbn [convert_pieces].
  destruct Hr as [|b b' r' r2' Hb Hr'].
  - rewrite (letter_single_piece _ _ _ Ha Ha'). reflexivity.
  - assert (Hpair : upper [a; b] = upper [a'; b']).
    { destruct Hb as (kb & Hb & Hb'). rewrite !upper_pair.
      rewrite (proj1 Ha), (proj1 Ha'), (proj1 Hb), (proj1 Hb'). reflexivity. }
    rewrite Hpair. cbn [length] in Hn.
    destruct (dict_get (upper [a'; b']) MAPPING).
    + f_equal. apply IH; [lia|exact Hr'].
    + rewrite (letter_single_piece _ _ _ Ha Ha'). f_equal.
      apply IH; [cbn [length]; lia|]. constructor; assumption.
Qed.

Lemma letter_lower c k :
  letter_of c k -> exists l, lower_cp c = [l] /\ letter_of l k.
Proof.
  intros [H Hk].
  pose proof (forall_letters
    (fun k => str_eqb (lower_cp k) [k + 32]
              && str_eqb (lower_cp (k + 32)) [k + 32]
              && str_eqb (upper_cp (k + 32)) [k]) eq_refl k Hk) as HP.
  apply andb_prop in HP as [HP H3]. apply andb_prop in HP as [H1 H2].
  apply str_eqb_eq in H1, H2, H3.
  destruct (upper_cp_letter_inv _ _ H Hk) as [->|[->|[[-> ->]|[-> ->]]]].
  - exists (k + 32). repeat split; (assumption || lia).
  - exists (k + 32). repeat split; (assumption || lia).
  - exists 305. repeat split; lia.
  - exists 383. repeat split; lia.
Qed.

Lemma same_letter_upper s : Forall mapped s -> Forall2 same_letter s (upper s).
Proof.
  induction 1 as [|c s Hc _ IH]; [constructor|].
  destruct (mapped_letter _ Hc) as (k & Hk).
  change (upper (c :: s)) with (upper_cp c ++ upper s). rewrite (proj1 Hk).
  constructor; [|exact IH].
  exists k. split; [exact Hk|]. split; [apply upper_cp_letter|]; apply Hk.
Qed.

Lemma same_letter_lower s : Forall mapped s -> Forall2 same_letter s (lower s).
Proof.
  induction 1 as [|c s Hc _ IH]; [constructor|].
  destruct (mapped_letter _ Hc) as (k & Hk).
  destruct (letter_lower _ _ Hk) as (l & Hl & Hlk).
  change (lower (c :: s)) with (lower_cp c ++ lower s). rewrite Hl.
  constructor; [|exact IH].
  exists k. split; assumption.
Qed.

(** C6: on a string all of whose characters are mapped, the forward converter
    gives the same result for the string, its uppercase form and its
    lowercase form. *)
Theorem convert_text_case_insensitive s :
  Forall mapped s ->
  convert_text s = convert_text (upper s) /\
  convert_text (upper s) = convert_text (lower s).
Proof.
  intros Hs. rewrite !convert_text_pieces.
  rewrite <- (same_letter_pieces (length s) s (upper s) (le_n _)
                (same_letter_upper s Hs)).
  rewrite <- (same_letter_pieces (length s) s (lower s) (le_n _)
                (same_letter_lower s Hs)).
  split; reflexivity.
Qed.

Lemma convert_text_case_insensitive_witness :
  Forall mapped (u "sHoCkZq") /\
  convert_text (u "sHoCkZq") = convert_text (upper (u "sHoCkZq")) /\
  convert_text (upper (u "sHoCkZq")) = convert_text (lower (u "sHoCkZq")).
Proof.
  assert (H : Forall mapped (u "sHoCkZq")).
  { repeat constructor; vm_compute; eexists; reflexivity. }
  split; [exact H|]. apply (convert_text_case_insensitive _ H).
Defined.

(** ** The shape of the table *)

(** C3, as stated, fails: the table has 26 single-letter tokens, not 24. *)
Lemma MAPPING_not_24_single_tokens :
  ~ (length (digraph_tokens MAPPING) = 2%nat /\
     length (single_tokens MAPPING) = 24%nat /\
     forallb is_token (dict_keys MAPPING) = true).
Proof. intros (_ & H & _). vm_compute in H. discriminate H. Qed.

(** C3, amended: the table, in both files, has exactly the two digraph tokens
    "CH" and "SH" and exactly 26 single-letter tokens, one for each letter
    "A" to "Z"; every token is a one- or two-character uppercase Latin string,
    and no token occurs twice. *)
Theorem MAPPING_tokens :
  digraph_tokens MAPPING = [u "CH"; u "SH"] /\
  length (single_tokens MAPPING) = 26%nat /\
  single_tokens MAPPING = map (fun c => [c]) (seqZ 65 26) /\
  forallb is_token (dict_keys MAPPING) = true /\
  NoDup (dict_keys MAPPING) /\
  FORWARD = MAPPING.
Proof.
  repeat split; try reflexivity.
  apply (bool_decide_eq_true_1 (NoDup (dict_keys MAPPING))).
  vm_compute. reflexivity.
Qed.

(** ** ASCII characters that are symbols *)

(** C10: eleven plain ASCII characters are keys of the inverse mapping, so the
    reverse converter rewrites them: the digit "7" becomes "G" (and, for
    instance, the letter "A" becomes "X"); digits and Latin letters are not
    always passed through. *)
Theorem reverse_rewrites_ascii :
  Forall (fun c => is_Some (dict_get [c] REVERSE)) (u "7AEFHKLTVXZ") /\
  reverse_convert (u "7") (Some ∅) = Some (u "G") /\
  reverse_convert (u "7") (Some ∅) <> Some (u "7") /\
  reverse_convert (u "A") (Some ∅) = Some (u "X").
Proof.
  split; [|split; [|split]].
  - repeat constructor; vm_compute; eexists; reflexivity.
  - vm_compute. reflexivity.
  - vm_compute. discriminate.
  - vm_compute. reflexivity.
Qed.

(** ** Candidates of a symbol *)

Lemma setdefault_append_nonempty rev sym latin :
  Forall (fun kv : str * list str => kv.2 <> []) rev ->
  Forall (fun kv : str * list str => kv.2 <> []) (setdefault_append rev sym latin).
Proof.
  induction 1 as [|[k v] rev Hv Hrev IH]; cbn [setdefault_append].
  - repeat constructor. discriminate.
  - destruct (str_eqb k sym); constructor; try assumption.
    cbn. destruct v; discriminate.
Qed.

(** By construction every key of an inverted map has at least one token. *)
Lemma build_reverse_map_nonempty forward_map :
  Forall (fun kv : str * list str => kv.2 <> []) (build_reverse_map forward_map).
Proof.
  unfold build_reverse_map.
  assert (H : Forall (fun kv : str * list str => kv.2 <> []) []) by constructor.
  revert H. generalize (@nil (str * list str)).
  induction forward_map as [|[latin sym] fm IH]; intros rev H; cbn [fold_left].
  - exact H.
  - apply IH, setdefault_append_nonempty, H.
Qed.

Lemma sorted_insert_nonempty {A} (before : A -> A -> bool) x l :
  sorted_insert before x l <> [].
Proof. destruct l; cbn; [|destruct (before a x)]; discriminate. Qed.

Lemma sorted_head_some options :
  options <> [] -> exists m, head (sorted options) = Some m.
Proof.
  destruct options as [|o os]; [congruence|]. intros _.
  unfold sorted, sorted_with. cbn [foldr].
  pose proof (sorted_insert_nonempty str_ltb o (foldr (sorted_insert str_ltb) [] os)).
  destruct (sorted_insert str_ltb o _); [congruence|]. eexists. reflexivity.
Qed.

Lemma choose_latin_some symbol preferences options :
  dict_get symbol REVERSE = Some options -> options <> [] ->
  exists latin, choose_latin_for_symbol symbol preferences = Some latin.
Proof.
  intros H Hne. unfold choose_latin_for_symbol. rewrite H.
  destruct (sorted_head_some options Hne) as [m Hm].
  destruct options as [|o [|o2 os]]; [congruence|eauto|].
  destruct (preferences ≫= (.!! symbol)); [|eauto].
  destruct (existsb _ _); eauto.
Qed.

(** C8: every symbol of the match order, and every symbol of the table, has at
    least one candidate token; the symbols with more than one are exactly the
    four ambiguous ones; so for a matched symbol the choice is never [None],
    whatever the preferences, and the iteration appends the chosen token, not
    the symbol. *)
Theorem matched_symbol_has_candidate :
  Forall (fun sym => (1 <= length (candidates sym))%nat) SYMBOLS_SORTED /\
  Forall (fun kv => (1 <= length (candidates kv.2))%nat) FORWARD /\
  List.filter (fun sym => (1 <? length (candidates sym))%nat) (dict_keys REVERSE)
    = [u "ヲ"; u "Z"; u "V"; u "A"] /\
  (forall sym preferences, In sym SYMBOLS_SORTED ->
     exists latin, choose_latin_for_symbol sym preferences = Some latin) /\
  (forall s preferences i out sym,
     matched_symbol (drop i s) = Some sym ->
     exists latin, choose_latin_for_symbol sym preferences = Some latin /\
       reverse_iter s preferences i out
       = Some ((i + length sym)%nat, out ++ [latin])).
Proof.
  assert (Hsome : forall sym preferences, In sym SYMBOLS_SORTED ->
            exists latin, choose_latin_for_symbol sym preferences = Some latin).
  { intros sym preferences Hin.
    assert (HF : Forall (fun sym => is_Some (dict_get sym REVERSE)) SYMBOLS_SORTED).
    { repeat constructor; vm_compute; eexists; reflexivity. }
    rewrite Forall_forall in HF.
    destruct (HF sym (proj2 (list_elem_of_In _ _) Hin)) as (options & Ho).
    assert (Hne : options <> []).
    { pose proof (build_reverse_map_nonempty FORWARD) as HR.
      change (build_reverse_map FORWARD) with REVERSE in HR.
      rewrite Forall_forall in HR.
      exact (HR _ (proj2 (list_elem_of_In _ _) (dict_get_In _ _ _ Ho))). }
    exact (choose_latin_some _ _ _ Ho Hne). }
  split; [|split; [|split; [|split]]].
  - repeat constructor.
  - repeat constructor.
  - reflexivity.
  - exact Hsome.
  - intros s preferences i out sym Hm.
    destruct (Hsome sym preferences) as [latin Hl].
    { apply find_some in Hm. apply Hm. }
    exists latin. split; [exact Hl|].
    rewrite reverse_iter_matched, Hm. unfold emitted. rewrite Hl. reflexivity.
Qed.

Lemma matched_symbol_has_candidate_witness :
  exists latin, choose_latin_for_symbol (u "ヲ") (Some PREFERENCES) = Some latin.
Proof.
  apply (proj1 (proj2 (proj2 (proj2 matched_symbol_has_candidate)))
           (u "ヲ") (Some PREFERENCES)).
  vm_compute. tauto.
Defined.

(** ** The three-tier choice *)

Lemma REVERSE_fallback_min :
  Forall (fun kv : str * list str =>
            exists m, head (sorted kv.2) = Some m /\
                      existsb (str_eqb m) kv.2 = true /\
                      forallb (str_leb m) kv.2 = true) REVERSE.
Proof. repeat constructor; eexists; repeat split; vm_compute; reflexivity. Qed.

Lemma existsb_str_eqb p options : existsb (str_eqb p) options = true <-> In p options.
Proof.
  rewrite existsb_exists. split.
  - intros (o & Ho & E). apply str_eqb_eq in E as ->. exact Ho.
  - intros H. exists p. split; [exact H|]. apply str_eqb_eq. reflexivity.
Qed.

(** C2: a symbol with exactly one candidate resolves to it; a symbol with
    several candidates resolves to its preferences entry when that entry is
    one of the candidates, and otherwise (no preferences, no entry, or an entry
    that is not a candidate) to the lexicographically smallest candidate.  The
    symbol of C, K and Q resolves to "C" under empty preferences and to "K"
    when the preferences say so. *)
Theorem choose_latin_three_tier :
  (forall symbol preferences options,
     dict_get symbol REVERSE = Some options ->
     (forall only, options = [only] ->
        choose_latin_for_symbol symbol preferences = Some only) /\
     ((2 <= length options)%nat ->
      forall p, preferences ≫= (.!! symbol) = Some p -> In p options ->
        choose_latin_for_symbol symbol preferences = Some p) /\
     ((2 <= length options)%nat ->
      (forall p, preferences ≫= (.!! symbol) = Some p -> ~ In p options) ->
      exists m, choose_latin_for_symbol symbol preferences = Some m /\
                In m options /\
                forall o, In o options -> str_leb m o = true)) /\
  choose_latin_for_symbol (u "ヲ") (Some ∅) = Some (u "C") /\
  choose_latin_for_symbol (u "ヲ") None = Some (u "C") /\
  choose_latin_for_symbol (u "ヲ") (Some {[ u "ヲ" := u "K" ]}) = Some (u "K").
Proof.
  split; [|repeat split; vm_compute; reflexivity].
  intros symbol preferences options Hget.
  unfold choose_latin_for_symbol. rewrite Hget.
  split; [|split].
  - intros only ->. reflexivity.
  - intros Hlen p Hp Hin.
    destruct options as [|o [|o2 os]]; cbn [length] in Hlen; try lia.
    rewrite Hp. apply existsb_str_eqb in Hin. rewrite Hin. reflexivity.
  - intros Hlen Hno.
    pose proof REVERSE_fallback_min as HF. rewrite Forall_forall in HF.
    destruct (HF _ (proj2 (list_elem_of_In _ _) (dict_get_In _ _ _ Hget)))
      as (m & Hm & Hin & Hmin).
    cbn [snd] in Hm, Hin, Hmin.
    exists m. split; [|split].
    + destruct options as [|o [|o2 os]]; cbn [length] in Hlen; try lia.
      destruct (preferences ≫= (.!! symbol)) as [p|] eqn:Hp; [|exact Hm].
      destruct (existsb (str_eqb p) (o :: o2 :: os)) eqn:E; [|exact Hm].
      apply existsb_str_eqb in E. destruct (Hno p eq_refl E).
    + apply existsb_str_eqb, Hin.
    + intros o Ho. rewrite forallb_forall in Hmin. exact (Hmin o Ho).
Qed.

Lemma choose_latin_three_tier_witness :
  choose_latin_for_symbol (u "Z") (Some PREFERENCES) = Some (u "L").
Proof.
  refine (proj1 (proj2 (proj1 choose_latin_three_tier (u "Z") (Some PREFERENCES)
                          [u "L"; u "R"] _)) _ (u "L") _ _).
  - reflexivity.
  - vm_compute. lia.
  - vm_compute. reflexivity.
  - vm_compute. tauto.
Defined.

(** ** Longest symbol first *)

Lemma sorted_insert_perm {A} (before : A -> A -> bool) x l :
  sorted_insert before x l ≡ₚ x :: l.
Proof.
  induction l as [|y l IH]; cbn [sorted_insert]; [reflexivity|].
  destruct (before y x); [|reflexivity].
  rewrite IH. apply Permutation_swap.
Qed.

Lemma sorted_with_perm {A} (before : A -> A -> bool) l :
  sorted_with before l ≡ₚ l.
Proof.
  induction l as [|x l IH]; [reflexivity|].
  unfold sorted_with in *. cbn [foldr].
  rewrite sorted_insert_perm, IH. reflexivity.
Qed.

Lemma sorted_insert_not_shorter x l :
  StronglySorted not_shorter l ->
  StronglySorted not_shorter (sorted_insert longer_first x l).
Proof.
  induction 1 as [|y l Hl IH Hy]; cbn [sorted_insert].
  - repeat constructor.
  - unfold longer_first at 1. destruct (Nat.ltb_spec (length x) (length y)) as [Hlt|Hge].
    + constructor; [exact IH|].
      rewrite (sorted_insert_perm longer_first x l).
      constructor; [unfold not_shorter; lia|exact Hy].
    + constructor; [constructor; assumption|].
      constructor; [exact Hge|].
      eapply Forall_impl; [exact Hy|]. unfold not_shorter. intros z Hz. lia.
Qed.

Lemma sorted_len_reverse_sorted l :
  StronglySorted not_shorter (sorted_len_reverse l).
Proof.
  induction l as [|x l IH]; [constructor|].
  exact (sorted_insert_not_shorter x _ IH).
Qed.

Lemma sorted_insert_stable n x l :
  List.filter (has_length n) (sorted_insert longer_first x l)
  = List.filter (has_length n) (x :: l).
Proof.
  induction l as [|y l IH]; cbn [sorted_insert]; [reflexivity|].
  unfold longer_first at 1. destruct (Nat.ltb_spec (length x) (length y)) as [Hlt|Hge];
    [|reflexivity].
  cbn [List.filter] in *. rewrite IH. unfold has_length.
  destruct (Nat.eqb_spec (length x) n), (Nat.eqb_spec (length y) n);
    (reflexivity || lia).
Qed.

(** Symbols of equal length keep the order they have in the argument. *)
Lemma sorted_len_reverse_stable n l :
  List.filter (has_length n) (sorted_len_reverse l) = List.filter (has_length n) l.
Proof.
  induction l as [|x l IH]; [reflexivity|].
  change (sorted_len_reverse (x :: l))
    with (sorted_insert longer_first x (sorted_len_reverse l)).
  rewrite sorted_insert_stable. cbn [List.filter]. rewrite IH. reflexivity.
Qed.

Lemma find_split {A} (P : A -> bool) l m :
  find P l = Some m ->
  exists l1 l2, l = l1 ++ m :: l2 /\ Forall (fun x => P x = false) l1 /\ P m = true.
Proof.
  induction l as [|y l IH]; cbn [find]; [discriminate|].
  destruct (P y) eqn:Hy.
  - intros [= ->]. exists [], l. repeat split; [constructor|exact Hy].
  - intros H. destruct (IH H) as (l1 & l2 & -> & H1 & Hm).
    exists (y :: l1), l2. repeat split; [constructor; assumption|exact Hm].
Qed.

Lemma find_first_longest (P : str -> bool) l :
  StronglySorted not_shorter l ->
  forall x, In x l -> P x = true ->
  exists m, find P l = Some m /\ not_shorter m x.
Proof.
  induction 1 as [|y l Hl IH Hy]; intros x Hin Hx; [destruct Hin|].
  cbn [find]. destruct (P y) eqn:Py.
  - exists y. split; [reflexivity|].
    destruct Hin as [->|Hin]; [unfold not_shorter; lia|].
    rewrite Forall_forall in Hy. apply Hy, list_elem_of_In, Hin.
  - destruct Hin as [->|Hin]; [congruence|]. exact (IH x Hin Hx).
Qed.

(** C4: the match order is the key list of the inverse mapping sorted by
    descending length, symbols of equal length keeping their insertion order;
    the candidates are tried in that order, so at a position where some known
    symbol is a prefix of the remaining input, the iteration consumes a known
    symbol that is a prefix and is at least as long as every known symbol that
    is a prefix there: it neither matches a shorter symbol nor falls through
    to the single character. *)
Theorem longest_symbol_first :
  SYMBOLS_SORTED = sorted_len_reverse (dict_keys REVERSE) /\
  SYMBOLS_SORTED ≡ₚ dict_keys REVERSE /\
  StronglySorted not_shorter SYMBOLS_SORTED /\
  (forall n, List.filter (has_length n) SYMBOLS_SORTED
             = List.filter (has_length n) (dict_keys REVERSE)) /\
  (forall s preferences i out sym,
     In sym SYMBOLS_SORTED -> startswith s sym i = true ->
     exists m tried rest,
       SYMBOLS_SORTED = tried ++ m :: rest /\
       Forall (fun x => startswith s x i = false) tried /\
       startswith s m i = true /\
       (length sym <= length m)%nat /\
       reverse_iter s preferences i out
       = Some ((i + length m)%nat, out ++ [emitted m preferences])).
Proof.
  assert (Hdef : SYMBOLS_SORTED = sorted_len_reverse (dict_keys REVERSE))
    by reflexivity.
  split; [exact Hdef|]. split; [|split; [|split]].
  - rewrite Hdef. apply sorted_with_perm.
  - rewrite Hdef. apply sorted_len_reverse_sorted.
  - intros n. rewrite Hdef. apply sorted_len_reverse_stable.
  - intros s preferences i out sym Hin Hsym.
    destruct (find_first_longest (fun x => prefixb x (drop i s)) SYMBOLS_SORTED)
      with (x := sym) as (m & Hm & Hlen); [|exact Hin|exact Hsym|].
    { rewrite Hdef. apply sorted_len_reverse_sorted. }
    destruct (find_split _ _ _ Hm) as (tried & rest & Heq & Htried & Hpm).
    exists m, tried, rest. repeat split; try assumption.
    rewrite reverse_iter_matched. unfold matched_symbol. rewrite Hm. reflexivity.
Qed.

Lemma longest_symbol_first_witness :
  exists m tried rest,
    SYMBOLS_SORTED = tried ++ m :: rest /\
    Forall (fun x => startswith (u "ﾚV̀7") x 1 = false) tried /\
    startswith (u "ﾚV̀7") m 1 = true /\
    (length (u "V") <= length m)%nat /\
    reverse_iter (u "ﾚV̀7") None 1 [u "SH"]
    = Some ((1 + length m)%nat, [u "SH"] ++ [emitted m None]).
Proof.
  apply (proj2 (proj2 (proj2 (proj2 longest_symbol_first)))
           (u "ﾚV̀7") None 1%nat [u "SH"] (u "V")).
  - vm_compute. tauto.
  - vm_compute. reflexivity.
Defined.

(** ** Round trip *)

Lemma prefixb_two_ne p1 p2 s1 c rest :
  p2 <> c -> prefixb [p1; p2] (s1 :: c :: rest) = false.
Proof.
  intros H. cbn [prefixb]. rewrite (proj2 (Z.eqb_neq p2 c) H).
  apply andb_false_r.
Qed.

(** A symbol of the table followed by clean text is the symbol matched. *)
Lemma matched_symbol_app k sym rest :
  dict_get k MAPPING = Some sym -> clean rest ->
  matched_symbol (sym ++ rest) = Some sym.
Proof.
  intros H Hc. apply dict_get_In in H. vm_compute in H.
  unfold matched_symbol, SYMBOLS_SORTED.
  repeat (destruct H as [H|H];
    [injection H as _ <-;
     destruct rest as [|c rest];
     [vm_compute; reflexivity|];
     cbn [app find]; cbn in Hc;
     rewrite ?prefixb_two_ne by lia;
     vm_compute; reflexivity|]).
  destruct H.
Qed.

Lemma piece_fallback k sym :
  dict_get k MAPPING = Some sym ->
  emitted sym (Some ∅) = map fallback_letter k /\ sym <> [] /\ clean sym.
Proof.
  intros H. apply dict_get_In in H. vm_compute in H.
  repeat (destruct H as [H|H];
    [injection H as <- <-;
     split; [vm_compute; reflexivity|split; [discriminate|cbn; lia]]|]).
  destruct H.
Qed.

Lemma run_symbol_app preferences sym rest ps :
  sym <> [] -> matched_symbol (sym ++ rest) = Some sym ->
  reverse_run preferences rest ps ->
  reverse_run preferences (sym ++ rest) (emitted sym preferences :: ps).
Proof.
  intros Hne Hm Hrun.
  destruct (sym ++ rest) as [|c t] eqn:E.
  { destruct sym; [congruence|discriminate E]. }
  apply run_symbol with (sym := sym); [exact Hm|].
  rewrite <- E, drop_app_length. exact Hrun.
Qed.

Lemma clean_app sym rest : sym <> [] -> clean sym -> clean (sym ++ rest).
Proof. destruct sym; [congruence|]. intros _ H. exact H. Qed.

Lemma round_trip_run : forall n L,
  (length L <= n)%nat -> Forall mapped L ->
  exists ps, reverse_run (Some ∅) (concat (convert_pieces L)) ps /\
             concat ps = map fallback_letter (upper L) /\
             clean (concat (convert_pieces L)).
Proof.
  induction n as [|n IH]; intros [|a r] Hn HL; cbn [length] in Hn; try lia;
    try (exists []; repeat split; constructor).
  inversion HL as [|? ? Ha Hr]; subst.
  assert (Hsingle : forall rest ps,
            reverse_run (Some ∅) rest ps -> clean rest ->
            exists ps', reverse_run (Some ∅) (single_piece a ++ rest) ps' /\
                        concat ps' = map fallback_letter (upper_cp a) ++ concat ps /\
                        clean (single_piece a ++ rest)).
  { intros rest ps Hrun Hclean. destruct Ha as [sym Hsym].
    unfold single_piece. rewrite Hsym.
    destruct (piece_fallback _ _ Hsym) as (He & Hne & Hcs).
    rewrite upper_single in He.
    exists (emitted sym (Some ∅) :: ps). split; [|split].
    - apply run_symbol_app; [exact Hne| |exact Hrun].
      exact (matched_symbol_app _ _ _ Hsym Hclean).
    - cbn [concat]. rewrite He. reflexivity.
    - apply clean_app; assumption. }
  change (upper (a :: r)) with (upper_cp a ++ upper r). rewrite map_app.
  cbn [convert_pieces].
  destruct r as [|b r'].
  - destruct (Hsingle [] [] (run_end _) I) as (ps & Hrun & Hcat & Hclean).
    exists ps. cbn [concat]. split; [exact Hrun|]. split; [|exact Hclean].
    rewrite Hcat. reflexivity.
  - destruct (dict_get (upper [a; b]) MAPPING) as [sym|] eqn:Hsym.
    + destruct (IH r') as (ps & Hrun & Hcat & Hclean).
      { cbn [length] in Hn. lia. }
      { inversion Hr; assumption. }
      destruct (piece_fallback _ _ Hsym) as (He & Hne & Hcs).
      exists (emitted sym (Some ∅) :: ps). cbn [concat]. split; [|split].
      * apply run_symbol_app; [exact Hne| |exact Hrun].
        exact (matched_symbol_app _ _ _ Hsym Hclean).
      * rewrite He, Hcat, upper_pair, map_app.
        change (upper (b :: r')) with (upper_cp b ++ upper r').
        rewrite map_app, app_assoc. reflexivity.
      * apply clean_app; assumption.
    + destruct (IH (b :: r')) as (ps & Hrun & Hcat & Hclean);
        [cbn [length] in *; lia|exact Hr|].
      destruct (Hsingle _ _ Hrun Hclean) as (ps' & Hrun' & Hcat' & Hclean').
      exists ps'. cbn [concat]. split; [exact Hrun'|]. split; [|exact Hclean'].
      rewrite Hcat', Hcat. reflexivity.
Qed.

Lemma round_trip_fallback L :
  Forall mapped L -> round_trip L (Some ∅) = Some (map fallback_letter (upper L)).
Proof.
  intros HL. unfold round_trip. rewrite convert_text_pieces.
  cbn [mbind option_bind].
  destruct (round_trip_run (length L) L (le_n _) HL) as (ps & Hrun & Hcat & _).
  rewrite (reverse_convert_run _ _ _ Hrun), Hcat. reflexivity.
Qed.

(** C1, as stated, fails: under empty preferences "K" does not round-trip to
    "K". *)
Lemma round_trip_K_empty_preferences :
  round_trip (u "K") (Some ∅) <> Some (u "K").
Proof. vm_compute. discriminate. Qed.

(** C1, amended: under empty preferences the round trip of a string of mapped
    letters is its uppercase form with every letter replaced by the smallest
    letter that shares its symbol (K and Q by C, R by L, W by V, Z by X); it
    is the identity on strings of uppercase letters other than K, Q, R, W and
    Z.  In particular "C", "K" and "Q" all round-trip to "C" under empty
    preferences; under the default preference table they all round-trip to
    "K". *)
Theorem round_trip_up_to_disambiguation :
  (forall L, Forall mapped L ->
     round_trip L (Some ∅) = Some (map fallback_letter (upper L))) /\
  (forall L, Forall unambiguous_upper L -> round_trip L (Some ∅) = Some L) /\
  Forall (fun L => round_trip L (Some ∅) = Some (u "C")) [u "C"; u "K"; u "Q"] /\
  Forall (fun L => round_trip L (Some PREFERENCES) = Some (u "K"))
         [u "C"; u "K"; u "Q"].
Proof.
  split; [exact round_trip_fallback|]. split; [|split].
  - intros L HL. rewrite round_trip_fallback.
    + f_equal. induction HL as [|c L Hc _ IH]; [reflexivity|].
      change (upper (c :: L)) with (upper_cp c ++ upper L).
      rewrite upper_cp_letter by apply Hc. cbn [app map]. rewrite IH. f_equal.
      unfold fallback_letter, unambiguous_upper in *.
      repeat match goal with
             | |- context [?x =? ?y] => destruct (Z.eqb_spec x y); [lia|]
             end.
      reflexivity.
    + eapply Forall_impl; [exact HL|]. intros c Hc. unfold mapped.
      rewrite upper_single, upper_cp_letter by apply Hc.
      destruct (MAPPING_letter c) as [sym ->]; [apply Hc|]. eexists. reflexivity.
  - repeat constructor.
  - repeat constructor.
Qed.

Lemma round_trip_up_to_disambiguation_witness :
  round_trip (u "quickJazzChefShow") (Some ∅) = Some (u "CUICCJAXXCHEFSHOV") /\
  round_trip (u "THEFOXCHASEDSHYBUGS") (Some ∅) = Some (u "THEFOXCHASEDSHYBUGS").
Proof.
  split.
  - apply (proj1 round_trip_up_to_disambiguation (u "quickJazzChefShow")).
    repeat constructor; vm_compute; eexists; reflexivity.
  - apply (proj1 (proj2 round_trip_up_to_disambiguation) (u "THEFOXCHASEDSHYBUGS")).
    repeat constructor; vm_compute; congruence.
Defined.

(** ** Inverting a forward map *)

Lemma str_eqb_spec a b : reflect (a = b) (str_eqb a b).
Proof. apply iff_reflect. symmetry. apply str_eqb_eq. Qed.

Lemma setdefault_append_get rev sym latin k :
  dict_get k (setdefault_append rev sym latin) =
  if str_eqb sym k then Some (default [] (dict_get k rev) ++ [latin])
  else dict_get k rev.
Proof.
  induction rev as [|[k' v] rev IH]; cbn [setdefault_append dict_get].
  - destruct (str_eqb sym k); reflexivity.
  - destruct (str_eqb_spec k' sym) as [->|Hne]; cbn [dict_get].
    + destruct (str_eqb_spec sym k) as [->|Hk]; reflexivity.
    + rewrite IH.
      destruct (str_eqb_spec k' k) as [->|Hk'];
        destruct (str_eqb_spec sym k) as [->|Hk]; congruence.
Qed.

Lemma fold_setdefault_get forward_map : forall rev k,
  dict_get k
    (fold_left (fun rev kv => setdefault_append rev kv.2 kv.1) forward_map rev) =
  match tokens_of k forward_map with
  | [] => dict_get k rev
  | ts => Some (default [] (dict_get k rev) ++ ts)
  end.
Proof.
  induction forward_map as [|[latin sym] fm IH]; intros rev k; [reflexivity|].
  cbn [fold_left]. rewrite IH, setdefault_append_get.
  unfold tokens_of. cbn [List.filter fst snd].
  destruct (str_eqb sym k); cbn [map fst].
  - destruct (map fst (List.filter _ fm)); cbn [default from_option id];
      rewrite <- ?app_assoc; reflexivity.
  - reflexivity.
Qed.

Lemma build_reverse_map_lookup forward_map sym :
  dict_get sym (build_reverse_map forward_map) =
  match tokens_of sym forward_map with
  | [] => None
  | ts => Some ts
  end.
Proof.
  unfold build_reverse_map. rewrite fold_setdefault_get.
  destruct (tokens_of sym forward_map); reflexivity.
Qed.

(** X1: in the inverse of any forward map, a symbol is a key exactly when
    some token is sent to it, and its value lists those tokens in the order
    of the forward map. *)
Theorem build_reverse_map_get forward_map sym :
  dict_get sym (build_reverse_map forward_map) =
  match tokens_of sym forward_map with
  | [] => None
  | ts => Some ts
  end.
Proof. exact (build_reverse_map_lookup forward_map sym). Qed.

Lemma setdefault_append_keys rev sym latin :
  dict_keys (setdefault_append rev sym latin) =
  dict_keys rev ++ match dict_get sym rev with Some _ => [] | None => [sym] end.
Proof.
  induction rev as [|[k v] rev IH]; cbn [setdefault_append dict_get dict_keys map fst];
    [reflexivity|].
  destruct (str_eqb k sym); cbn [dict_keys map fst app].
  - rewrite app_nil_r. reflexivity.
  - f_equal. exact IH.
Qed.

Lemma dict_get_keys {V} k (d : dict V) : is_Some (dict_get k d) <-> In k (dict_keys d).
Proof.
  induction d as [|[k' v] d IH]; cbn [dict_get dict_keys map fst In].
  - split; [intros [? [=]]|tauto].
  - destruct (str_eqb_spec k' k) as [->|Hne].
    + split; [tauto|eauto].
    + rewrite IH. unfold dict_keys. tauto.
Qed.

Lemma setdefault_append_NoDup rev sym latin :
  NoDup (dict_keys rev) -> NoDup (dict_keys (setdefault_append rev sym latin)).
Proof.
  intros H. rewrite setdefault_append_keys.
  destruct (dict_get sym rev) eqn:E; [rewrite app_nil_r; exact H|].
  apply NoDup_app. split; [exact H|]. split; [|apply NoDup_singleton].
  intros x Hx ->%list_elem_of_singleton.
  apply list_elem_of_In, dict_get_keys in Hx. rewrite E in Hx.
  destruct Hx as [? [=]].
Qed.

(** X2: no symbol is listed twice among the keys of an inverted map, and the
    keys are exactly the symbols of the forward map. *)
Theorem build_reverse_map_keys forward_map :
  NoDup (dict_keys (build_reverse_map forward_map)) /\
  forall sym, In sym (dict_keys (build_reverse_map forward_map)) <->
              exists latin, In (latin, sym) forward_map.
Proof.
  split.
  - unfold build_reverse_map.
    assert (H : NoDup (dict_keys (@nil (str * list str)))) by constructor.
    revert H. generalize (@nil (str * list str)).
    induction forward_map as [|[latin sym] fm IH]; intros rev H; cbn [fold_left].
    + exact H.
    + apply IH, setdefault_append_NoDup, H.
  - intros sym. rewrite <- dict_get_keys, build_reverse_map_lookup.
    unfold tokens_of. split.
    + intros [ts Hts].
      destruct (List.filter _ forward_map) as [|[latin s] l] eqn:E; [discriminate Hts|].
      assert (Hin : In (latin, s) (List.filter (fun kv => str_eqb kv.2 sym) forward_map))
        by (rewrite E; left; reflexivity).
      apply filter_In in Hin as [Hin Hs]. apply str_eqb_eq in Hs. cbn in Hs. subst s.
      exists latin. exact Hin.
    + intros [latin Hin].
      assert (Hf : In (latin, sym) (List.filter (fun kv => str_eqb kv.2 sym) forward_map)).
      { apply filter_In. split; [exact Hin|]. apply str_eqb_eq. reflexivity. }
      destruct (List.filter _ forward_map) as [|kv l]; [destruct Hf|].
      eexists. reflexivity.
Qed.

(** ** The chosen token *)

Lemma REVERSE_inverts_FORWARD :
  Forall (fun kv : str * list str =>
            Forall (fun latin => dict_get latin FORWARD = Some kv.1 /\
                                 convert_text latin = Some kv.1 /\
                                 (1 <= length latin <= 2)%nat) kv.2) REVERSE.
Proof. repeat constructor. Qed.

Lemma REVERSE_values_nonempty sym options :
  dict_get sym REVERSE = Some options -> options <> [].
Proof.
  intros H. pose proof (build_reverse_map_nonempty FORWARD) as HR.
  change (build_reverse_map FORWARD) with REVERSE in HR.
  rewrite Forall_forall in HR.
  exact (HR _ (proj2 (list_elem_of_In _ _) (dict_get_In _ _ _ H))).
Qed.

Lemma choose_latin_candidate sym preferences latin :
  choose_latin_for_symbol sym preferences = Some latin ->
  exists options, dict_get sym REVERSE = Some options /\ In latin options.
Proof.
  unfold choose_latin_for_symbol.
  destruct (dict_get sym REVERSE) as [options|] eqn:Hget; [|discriminate].
  intros H. exists options. split; [reflexivity|].
  assert (Hhead : forall m, head (sorted options) = Some m -> In m options).
  { intros m Hm. pose proof REVERSE_fallback_min as HF. rewrite Forall_forall in HF.
    destruct (HF _ (proj2 (list_elem_of_In _ _) (dict_get_In _ _ _ Hget)))
      as (m' & Hm' & Hin & _).
    cbn [snd] in Hm', Hin. rewrite Hm in Hm'. injection Hm' as <-.
    apply existsb_str_eqb, Hin. }
  destruct options as [|o [|o2 os]]; [discriminate H| |].
  - injection H as ->. left. reflexivity.
  - destruct (preferences ≫= (.!! sym)) as [p|]; [|exact (Hhead _ H)].
    destruct (existsb (str_eqb p) (o :: o2 :: os)) eqn:E; [|exact (Hhead _ H)].
    injection H as <-. apply existsb_str_eqb, E.
Qed.

(** X3: whatever the preferences, valid or not, the token chosen for a symbol
    is one of its candidates, is a key of the forward table for that symbol,
    and is converted back to the symbol by the forward converter. *)
Theorem choose_latin_inverts_forward sym preferences latin :
  choose_latin_for_symbol sym preferences = Some latin ->
  In latin (candidates sym) /\
  dict_get latin FORWARD = Some sym /\
  convert_text latin = Some sym.
Proof.
  intros H. destruct (choose_latin_candidate _ _ _ H) as (options & Hget & Hin).
  unfold candidates. rewrite Hget. split; [exact Hin|].
  pose proof REVERSE_inverts_FORWARD as HF. rewrite Forall_forall in HF.
  specialize (HF _ (proj2 (list_elem_of_In _ _) (dict_get_In _ _ _ Hget))).
  rewrite Forall_forall in HF.
  destruct (HF _ (proj2 (list_elem_of_In _ _) Hin)) as (H1 & H2 & _).
  split; assumption.
Qed.

Lemma choose_latin_inverts_forward_witness :
  In (u "K") (candidates (u "ヲ")) /\
  dict_get (u "K") FORWARD = Some (u "ヲ") /\
  convert_text (u "K") = Some (u "ヲ").
Proof.
  apply (choose_latin_inverts_forward (u "ヲ") (Some PREFERENCES) (u "K")).
  vm_compute. reflexivity.
Defined.

(** X4: the choice is [None] exactly for a string that is not a symbol of the
    table, whatever the preferences. *)
Theorem choose_latin_none_iff sym preferences :
  choose_latin_for_symbol sym preferences = None <->
  ~ In sym (dict_keys REVERSE).
Proof.
  rewrite <- dict_get_keys. split.
  - intros H [options Hget].
    destruct (choose_latin_some sym preferences options Hget
                (REVERSE_values_nonempty _ _ Hget)) as [latin Hl].
    congruence.
  - intros H. unfold choose_latin_for_symbol.
    destruct (dict_get sym REVERSE); [|reflexivity].
    destruct H. eexists. reflexivity.
Qed.

(** ** Preferences *)

Lemma REVERSE_ambiguous :
  Forall (fun kv : str * list str =>
            (2 <= length kv.2)%nat -> In kv.1 [u "ヲ"; u "Z"; u "V"; u "A"])
         REVERSE.
Proof.
  unfold REVERSE.
  repeat (constructor;
          [cbn [fst snd length]; intros H; first [lia|vm_compute; tauto]|]).
  constructor.
Qed.

Lemma choose_latin_agree p p' sym :
  agree_on_ambiguous p p' ->
  choose_latin_for_symbol sym p = choose_latin_for_symbol sym p'.
Proof.
  intros Hagree. unfold choose_latin_for_symbol.
  destruct (dict_get sym REVERSE) as [options|] eqn:Hget; [|reflexivity].
  destruct options as [|o [|o2 os]]; try reflexivity.
  assert (Hin : In sym [u "ヲ"; u "Z"; u "V"; u "A"]).
  { pose proof REVERSE_ambiguous as HF. rewrite Forall_forall in HF.
    apply (HF _ (proj2 (list_elem_of_In _ _) (dict_get_In _ _ _ Hget))).
    cbn [snd length]. lia. }
  unfold agree_on_ambiguous in Hagree. rewrite Forall_forall in Hagree.
  rewrite (Hagree sym (proj2 (list_elem_of_In _ _) Hin)). reflexivity.
Qed.

Lemma for_sym_agree p p' syms s i out :
  agree_on_ambiguous p p' -> for_sym syms s p i out = for_sym syms s p' i out.
Proof.
  intros Hagree. induction syms as [|sym syms IH]; [reflexivity|].
  cbn [for_sym]. rewrite (choose_latin_agree p p' sym Hagree), IH. reflexivity.
Qed.

Lemma reverse_loop_agree p p' fuel : forall s i out,
  agree_on_ambiguous p p' -> reverse_loop fuel s p i out = reverse_loop fuel s p' i out.
Proof.
  induction fuel as [|fuel IH]; intros s i out Hagree; [reflexivity|].
  cbn [reverse_loop]. unfold reverse_iter.
  rewrite (for_sym_agree p p' _ _ _ _ Hagree).
  case_bool_decide; [|reflexivity].
  destruct (for_sym SYMBOLS_SORTED s p' i out) as [st|]; cbn [mbind option_bind].
  - apply IH, Hagree.
  - destruct (s !! i); cbn [mbind option_bind]; [apply IH, Hagree|reflexivity].
Qed.

(** X5: the reverse converter reads its preferences only at the four
    ambiguous symbols: two preferences arguments that agree there give the same
    result on every input.  In particular an absent argument and an empty
    dictionary are interchangeable. *)
Theorem reverse_convert_preferences s :
  (forall p p', agree_on_ambiguous p p' ->
     reverse_convert s p = reverse_convert s p') /\
  reverse_convert s None = reverse_convert s (Some ∅).
Proof.
  assert (H : forall p p', agree_on_ambiguous p p' ->
                reverse_convert s p = reverse_convert s p').
  { intros p p' Hagree. unfold reverse_convert.
    rewrite (reverse_loop_agree p p' _ _ _ _ Hagree). reflexivity. }
  split; [exact H|]. apply H. repeat constructor.
Qed.

Lemma reverse_convert_preferences_witness :
  reverse_convert (u "ヲTZ") (Some {[ u "ヲ" := u "Q"; u "T" := u "X" ]})
  = reverse_convert (u "ヲTZ") (Some {[ u "ヲ" := u "Q" ]}).
Proof.
  apply (proj1 (reverse_convert_preferences (u "ヲTZ"))).
  repeat constructor.
Defined.

(** ** The ambiguity report *)

(** X6: the report of [interactive] has one row for each symbol with several
    candidates; the default preference table has an entry for each of them
    and no other entry; and the value reported as chosen is a candidate of the
    symbol and is the token the conversion uses for it. *)
Theorem interactive_report_consistent :
  Forall (fun kv : str * list str =>
            PREFERENCES !! kv.1 = Some (chosen kv.1) /\
            In (chosen kv.1) kv.2 /\
            choose_latin_for_symbol kv.1 (Some PREFERENCES) = Some (chosen kv.1))
         ambiguities /\
  NoDup (dict_keys ambiguities) /\
  size PREFERENCES = length ambiguities.
Proof.
  assert (E : ambiguities =
              [ (u "ヲ", [u "C"; u "K"; u "Q"]); (u "Z", [u "L"; u "R"]);
                (u "V", [u "V"; u "W"]); (u "A", [u "X"; u "Z"]) ])
    by (vm_compute; reflexivity).
  rewrite E. split; [|split].
  - repeat (constructor;
            [split; [|split]; vm_compute; first [reflexivity|tauto]|]).
    constructor.
  - apply (bool_decide_eq_true_1 (NoDup _)). vm_compute. reflexivity.
  - vm_compute. reflexivity.
Qed.

(** ** Unmatched characters in the reverse direction *)

Lemma matched_symbol_head c t sym :
  matched_symbol (c :: t) = Some sym -> is_Some (dict_get [c] REVERSE).
Proof.
  intros H. apply find_some in H as [Hin Hp].
  unfold SYMBOLS_SORTED in Hin. cbn [In] in Hin.
  repeat (destruct Hin as [<-|Hin];
          [cbn [prefixb] in Hp; apply andb_prop in Hp as [Hp _];
           apply Z.eqb_eq in Hp; subst c; vm_compute; eexists; reflexivity|]).
  destruct Hin.
Qed.

Lemma concat_singletons (x : str) : concat (map (fun c => [c]) x) = x.
Proof. induction x as [|c x IH]; [reflexivity|]. cbn. rewrite IH. reflexivity. Qed.

(** X7: a string none of whose characters is a symbol of the table is
    returned unchanged by the reverse converter, whatever the preferences. *)
Theorem reverse_convert_passthrough x preferences :
  Forall (fun c => dict_get [c] REVERSE = None) x ->
  reverse_convert x preferences = Some x.
Proof.
  intros Hx.
  rewrite (reverse_convert_run preferences x (map (fun c => [c]) x)).
  - rewrite concat_singletons. reflexivity.
  - induction Hx as [|c t Hc _ IH]; [constructor|].
    cbn [map]. apply run_char; [|exact IH].
    destruct (matched_symbol (c :: t)) as [sym|] eqn:Hm; [|reflexivity].
    apply matched_symbol_head in Hm. rewrite Hc in Hm. destruct Hm as [? [=]].
Qed.

Lemma reverse_convert_passthrough_witness :
  reverse_convert (u "123-🎉 ok, béni!") (Some PREFERENCES)
  = Some (u "123-🎉 ok, béni!").
Proof.
  apply (reverse_convert_passthrough (u "123-🎉 ok, béni!") (Some PREFERENCES)).
  vm_compute. repeat constructor.
Defined.

(** ** Concatenation *)

Lemma find_ext {A} (P Q : A -> bool) l :
  Forall (fun x => P x = Q x) l -> find P l = find Q l.
Proof.
  induction 1 as [|x l Hx _ IH]; [reflexivity|].
  cbn [find]. rewrite Hx, IH. reflexivity.
Qed.

Lemma matched_symbol_extend c t s2 :
  clean s2 -> matched_symbol ((c :: t) ++ s2) = matched_symbol (c :: t).
Proof.
  intros Hc. unfold matched_symbol. apply find_ext.
  destruct t as [|d t]; [destruct s2 as [|e s2]|].
  - rewrite app_nil_r. apply Forall_forall. reflexivity.
  - cbn [app]. cbn in Hc. unfold SYMBOLS_SORTED.
    repeat constructor;
      cbn [prefixb]; rewrite (proj2 (Z.eqb_neq _ e)) by lia; reflexivity.
  - cbn [app]. unfold SYMBOLS_SORTED. repeat constructor.
Qed.

Lemma reverse_run_app preferences s1 ps1 :
  reverse_run preferences s1 ps1 ->
  forall s2 ps2, clean s2 -> reverse_run preferences s2 ps2 ->
  reverse_run preferences (s1 ++ s2) (ps1 ++ ps2).
Proof.
  induction 1 as [|c t sym ps Hm _ IH|c t ps Hm _ IH]; intros s2 ps2 Hc H2.
  - exact H2.
  - change ((c :: t) ++ s2) with (c :: (t ++ s2)).
    change ((emitted sym preferences :: ps) ++ ps2)
      with (emitted sym preferences :: (ps ++ ps2)).
    apply run_symbol with (sym := sym).
    + exact (eq_trans (matched_symbol_extend c t s2 Hc) Hm).
    + change (c :: (t ++ s2)) with ((c :: t) ++ s2).
      rewrite drop_app_le by (apply (matched_symbol_bounds _ _ Hm)).
      exact (IH s2 ps2 Hc H2).
  - change ((c :: t) ++ s2) with (c :: (t ++ s2)).
    change (([c] :: ps) ++ ps2) with ([c] :: (ps ++ ps2)).
    apply run_char.
    + exact (eq_trans (matched_symbol_extend c t s2 Hc) Hm).
    + exact (IH s2 ps2 Hc H2).
Qed.

(** X8: the reverse converter distributes over a concatenation whose second
    part does not start with one of the three combining marks: the result for
    the whole is the result for the first part followed by the result for the
    second. *)
Theorem reverse_convert_app s1 s2 preferences :
  clean s2 ->
  reverse_convert (s1 ++ s2) preferences
  = opt_app (reverse_convert s1 preferences) (reverse_convert s2 preferences).
Proof.
  intros Hc.
  destruct (reverse_run_total preferences (length s1) s1 (le_n _)) as [ps1 H1].
  destruct (reverse_run_total preferences (length s2) s2 (le_n _)) as [ps2 H2].
  rewrite (reverse_convert_run _ _ _ (reverse_run_app _ _ _ H1 _ _ Hc H2)).
  rewrite (reverse_convert_run _ _ _ H1), (reverse_convert_run _ _ _ H2).
  unfold opt_app. cbn [mbind option_bind]. rewrite concat_app. reflexivity.
Qed.

Lemma reverse_convert_app_witness :
  reverse_convert (u "ヲV" ++ u "ﾚ̀7") None
  = opt_app (reverse_convert (u "ヲV") None) (reverse_convert (u "ﾚ̀7") None).
Proof.
  apply (reverse_convert_app (u "ヲV") (u "ﾚ̀7") None).
  vm_compute. repeat split; discriminate.
Defined.

Lemma convert_pieces_cons2 a b r :
  convert_pieces (a :: b :: r) =
  match dict_get (upper [a; b]) MAPPING with
  | Some sym => sym :: convert_pieces r
  | None => single_piece a :: convert_pieces (b :: r)
  end.
Proof. reflexivity. Qed.

Lemma convert_pieces_app : forall n s1 s2,
  (length s1 <= n)%nat -> splittable s1 s2 ->
  convert_pieces (s1 ++ s2) = convert_pieces s1 ++ convert_pieces s2.
Proof.
  induction n as [|n IH]; intros [|a r] s2 Hn Hs; cbn [length] in Hn;
    try lia; try reflexivity.
  destruct r as [|b r'].
  - destruct s2 as [|b s2]; [reflexivity|].
    change ([a] ++ b :: s2) with (a :: b :: s2).
    rewrite convert_pieces_cons2, (Hs a b eq_refl eq_refl). reflexivity.
  - assert (Hlast : forall l, last (a :: b :: l) = last (b :: l)) by reflexivity.
    change ((a :: b :: r') ++ s2) with (a :: b :: (r' ++ s2)).
    rewrite !convert_pieces_cons2. cbn [length] in Hn.
    destruct (dict_get (upper [a; b]) MAPPING).
    + cbn [app]. f_equal. apply IH; [lia|].
      intros x y Hx Hy. apply Hs; [|exact Hy].
      rewrite Hlast. destruct r' as [|c r'']; [discriminate Hx|exact Hx].
    + cbn [app]. f_equal.
      change (b :: r' ++ s2) with ((b :: r') ++ s2).
      apply IH; [cbn [length]; lia|].
      intros x y Hx Hy. apply Hs; [|exact Hy]. rewrite Hlast. exact Hx.
Qed.

(** X9: the forward converter distributes over a concatenation unless the cut
    falls inside a digraph, that is, unless the last character before the cut
    and the first after it form a key of the table together. *)
Theorem convert_text_app s1 s2 :
  splittable s1 s2 ->
  convert_text (s1 ++ s2) = opt_app (convert_text s1) (convert_text s2).
Proof.
  intros Hs. rewrite !convert_text_pieces.
  rewrite (convert_pieces_app (length s1) s1 s2 (le_n _) Hs), concat_app.
  reflexivity.
Qed.

Lemma convert_text_app_witness :
  convert_text (u "Cha" ++ u "sH!") = opt_app (convert_text (u "Cha")) (convert_text (u "sH!")).
Proof.
  apply (convert_text_app (u "Cha") (u "sH!")).
  intros a b Ha Hb. vm_compute in Ha, Hb.
  injection Ha as <-. injection Hb as <-. reflexivity.
Defined.

(** ** Lengths *)

Lemma MAPPING_symbol_length k sym :
  dict_get k MAPPING = Some sym -> (1 <= length sym <= 2)%nat.
Proof.
  intros H.
  assert (HF : Forall (fun kv : str * str => (1 <= length kv.2 <= 2)%nat) MAPPING).
  { repeat constructor. }
  rewrite Forall_forall in HF.
  exact (HF _ (proj2 (list_elem_of_In _ _) (dict_get_In _ _ _ H))).
Qed.

Lemma single_piece_length a : (1 <= length (single_piece a) <= 2)%nat.
Proof.
  unfold single_piece. destruct (dict_get (upper [a]) MAPPING) eqn:E.
  - exact (MAPPING_symbol_length _ _ E).
  - cbn. lia.
Qed.

Lemma convert_pieces_length : forall n s,
  (length s <= n)%nat ->
  (length s <= 2 * length (concat (convert_pieces s)) /\
   length (concat (convert_pieces s)) <= 2 * length s)%nat.
Proof.
  induction n as [|n IH]; intros [|a r] Hn; cbn [length] in Hn; try lia;
    try (cbn; lia).
  pose proof (single_piece_length a) as Ha.
  cbn [convert_pieces]. destruct r as [|b r'].
  - cbn [concat length]. rewrite app_nil_r. lia.
  - cbn [length] in Hn.
    destruct (dict_get (upper [a; b]) MAPPING) as [sym|] eqn:E.
    + apply MAPPING_symbol_length in E.
      destruct (IH r') as [H1 H2]; [lia|].
      cbn [concat length]. rewrite length_app. lia.
    + destruct (IH (b :: r')) as [H1 H2]; [cbn [length]; lia|].
      cbn [concat]. rewrite length_app. cbn [length] in *. lia.
Qed.

(** X10: the output of the forward converter is at least half and at most
    twice as long as its input, counted in code points. *)
Theorem convert_text_length s :
  exists r, convert_text s = Some r /\
            (length s <= 2 * length r /\ length r <= 2 * length s)%nat.
Proof.
  rewrite convert_text_pieces. eexists. split; [reflexivity|].
  exact (convert_pieces_length (length s) s (le_n _)).
Qed.

Lemma emitted_length sym preferences :
  In sym SYMBOLS_SORTED -> (1 <= length (emitted sym preferences) <= 2)%nat.
Proof.
  intros Hin. unfold emitted.
  destruct (choose_latin_for_symbol sym preferences) as [latin|] eqn:E.
  - destruct (choose_latin_candidate _ _ _ E) as (options & Hget & Ho).
    pose proof REVERSE_inverts_FORWARD as HF. rewrite Forall_forall in HF.
    specialize (HF _ (proj2 (list_elem_of_In _ _) (dict_get_In _ _ _ Hget))).
    rewrite Forall_forall in HF.
    apply (HF _ (proj2 (list_elem_of_In _ _) Ho)).
  - assert (HF : Forall (fun x : str => (1 <= length x <= 2)%nat) SYMBOLS_SORTED).
    { unfold SYMBOLS_SORTED. repeat constructor. }
    rewrite Forall_forall in HF. apply HF, list_elem_of_In, Hin.
Qed.

Lemma reverse_run_length preferences t ps :
  reverse_run preferences t ps ->
  (length t <= 2 * length (concat ps) /\ length (concat ps) <= 2 * length t)%nat.
Proof.
  induction 1 as [|c t sym ps Hm _ IH|c t ps Hm _ IH].
  - cbn. lia.
  - pose proof (matched_symbol_bounds _ _ Hm) as Hb.
    assert (Hs : (length sym <= 2)%nat).
    { apply find_some in Hm as [Hin _].
      assert (HF : Forall (fun x : str => (length x <= 2)%nat) SYMBOLS_SORTED).
      { unfold SYMBOLS_SORTED. repeat constructor. }
      rewrite Forall_forall in HF. apply HF, list_elem_of_In, Hin. }
    assert (He : (1 <= length (emitted sym preferences) <= 2)%nat).
    { apply emitted_length. apply find_some in Hm. apply Hm. }
    rewrite length_drop in IH. cbn [concat]. rewrite length_app. lia.
  - cbn [concat length app] in *. lia.
Qed.

(** X11: the output of the reverse converter is at least half and at most
    twice as long as its input, counted in code points, whatever the
    preferences. *)
Theorem reverse_convert_length s preferences :
  exists r, reverse_convert s preferences = Some r /\
            (length s <= 2 * length r /\ length r <= 2 * length s)%nat.
Proof.
  destruct (reverse_run_total preferences (length s) s (le_n _)) as [ps Hps].
  rewrite (reverse_convert_run _ _ _ Hps). eexists. split; [reflexivity|].
  exact (reverse_run_length _ _ _ Hps).
Qed.

(** ** Round trips through both converters *)

Lemma unambiguous_mapped L : Forall unambiguous_upper L -> Forall mapped L.
Proof.
  intros HL. eapply Forall_impl; [exact HL|]. intros c Hc. unfold mapped.
  rewrite upper_single, upper_cp_letter by apply Hc.
  destruct (MAPPING_letter c) as [sym ->]; [apply Hc|]. eexists. reflexivity.
Qed.

Lemma fallback_unambiguous L :
  Forall unambiguous_upper L -> map fallback_letter (upper L) = L.
Proof.
  induction 1 as [|c L Hc _ IH]; [reflexivity|].
  change (upper (c :: L)) with (upper_cp c ++ upper L).
  rewrite upper_cp_letter by apply Hc. cbn [app map]. rewrite IH. f_equal.
  unfold fallback_letter, unambiguous_upper in *.
  repeat match goal with
         | |- context [?x =? ?y] => destruct (Z.eqb_spec x y); [lia|]
         end.
  reflexivity.
Qed.

Lemma round_trip_unambiguous L :
  Forall unambiguous_upper L -> round_trip L (Some ∅) = Some L.
Proof.
  intros HL. rewrite (round_trip_fallback L (unambiguous_mapped L HL)).
  rewrite (fallback_unambiguous L HL). reflexivity.
Qed.

(** X12: on strings of uppercase letters other than K, Q, R, W and Z the
    forward converter is injective: two such strings with the same conversion
    are equal. *)
Theorem convert_text_injective L1 L2 :
  Forall unambiguous_upper L1 -> Forall unambiguous_upper L2 ->
  convert_text L1 = convert_text L2 -> L1 = L2.
Proof.
  intros H1 H2 E.
  pose proof (round_trip_unambiguous L1 H1) as R1.
  pose proof (round_trip_unambiguous L2 H2) as R2.
  unfold round_trip in R1, R2. rewrite E, R2 in R1. congruence.
Qed.

Lemma convert_text_injective_witness :
  Forall unambiguous_upper (u "CHESS") /\ u "CHESS" = u "CHESS".
Proof.
  assert (H : Forall unambiguous_upper (u "CHESS")).
  { repeat constructor; vm_compute; congruence. }
  split; [exact H|].
  apply (convert_text_injective (u "CHESS") (u "CHESS") H H). reflexivity.
Defined.

Lemma fallback_letter_unambiguous k :
  65 <= k <= 90 -> unambiguous_upper (fallback_letter k).
Proof.
  intros Hk. unfold fallback_letter, unambiguous_upper.
  destruct (Z.eqb_spec k 75), (Z.eqb_spec k 81), (Z.eqb_spec k 82),
    (Z.eqb_spec k 87), (Z.eqb_spec k 90); cbn [orb]; lia.
Qed.

Lemma fallback_upper_unambiguous L :
  Forall mapped L -> Forall unambiguous_upper (map fallback_letter (upper L)).
Proof.
  induction 1 as [|c L Hc _ IH]; [constructor|].
  destruct (mapped_letter _ Hc) as (k & Hk & Hr).
  change (upper (c :: L)) with (upper_cp c ++ upper L). rewrite Hk.
  cbn [app map]. constructor; [|exact IH].
  apply fallback_letter_unambiguous, Hr.
Qed.

(** X13: under empty preferences the round trip is a projection: the result
    for a string of mapped letters consists of uppercase letters other than K,
    Q, R, W and Z, and a second round trip leaves it unchanged. *)
Theorem round_trip_idempotent L :
  Forall mapped L ->
  exists L', round_trip L (Some ∅) = Some L' /\
             Forall unambiguous_upper L' /\
             round_trip L' (Some ∅) = Some L'.
Proof.
  intros HL. exists (map fallback_letter (upper L)).
  pose proof (fallback_upper_unambiguous L HL) as HU.
  split; [exact (round_trip_fallback L HL)|]. split; [exact HU|].
  exact (round_trip_unambiguous _ HU).
Qed.

Lemma round_trip_idempotent_witness :
  exists L', round_trip (u "quartzWork") (Some ∅) = Some L' /\
             Forall unambiguous_upper L' /\
             round_trip L' (Some ∅) = Some L'.
Proof.
  apply (round_trip_idempotent (u "quartzWork")).
  repeat constructor; vm_compute; eexists; reflexivity.
Defined.

Lemma round_trip_tokens_run preferences : forall n L,
  (length L <= n)%nat -> Forall mapped L ->
  exists ps, reverse_run preferences (concat (convert_pieces L)) ps /\
             concat ps = concat (map (resolve preferences) (tokenize L)) /\
             clean (concat (convert_pieces L)).
Proof.
  induction n as [|n IH]; intros [|a r] Hn HL; cbn [length] in Hn; try lia;
    try (exists []; repeat split; constructor).
  inversion HL as [|? ? Ha Hr]; subst.
  assert (Hsingle : forall rest ps,
            reverse_run preferences rest ps -> clean rest ->
            exists ps', reverse_run preferences (single_piece a ++ rest) ps' /\
                        concat ps' = resolve preferences (upper [a]) ++ concat ps /\
                        clean (single_piece a ++ rest)).
  { intros rest ps Hrun Hclean. destruct Ha as [sym Hsym].
    unfold single_piece, resolve. rewrite Hsym.
    destruct (piece_fallback _ _ Hsym) as (_ & Hne & Hcs).
    exists (emitted sym preferences :: ps). split; [|split].
    - apply run_symbol_app; [exact Hne| |exact Hrun].
      exact (matched_symbol_app _ _ _ Hsym Hclean).
    - reflexivity.
    - apply clean_app; assumption. }
  cbn [convert_pieces tokenize].
  destruct r as [|b r'].
  - destruct (Hsingle [] [] (run_end _) I) as (ps & Hrun & Hcat & Hclean).
    exists ps. cbn [concat map]. split; [exact Hrun|]. split; [|exact Hclean].
    rewrite Hcat. reflexivity.
  - destruct (dict_get (upper [a; b]) MAPPING) as [sym|] eqn:Hsym.
    + destruct (IH r') as (ps & Hrun & Hcat & Hclean).
      { cbn [length] in Hn. lia. }
      { inversion Hr; assumption. }
      destruct (piece_fallback _ _ Hsym) as (_ & Hne & Hcs).
      exists (emitted sym preferences :: ps). cbn [concat map]. split; [|split].
      * apply run_symbol_app; [exact Hne| |exact Hrun].
        exact (matched_symbol_app _ _ _ Hsym Hclean).
      * unfold resolve at 1. rewrite Hsym, Hcat. reflexivity.
      * apply clean_app; assumption.
    + destruct (IH (b :: r')) as (ps & Hrun & Hcat & Hclean);
        [cbn [length] in *; lia|exact Hr|].
      destruct (Hsingle _ _ Hrun Hclean) as (ps' & Hrun' & Hcat' & Hclean').
      exists ps'. cbn [concat map]. split; [exact Hrun'|]. split; [|exact Hclean'].
      rewrite Hcat', Hcat. reflexivity.
Qed.

Lemma round_trip_resolve L preferences :
  Forall mapped L ->
  round_trip L preferences
  = Some (concat (map (resolve preferences) (tokenize L))).
Proof.
  intros HL. unfold round_trip. rewrite convert_text_pieces.
  cbn [mbind option_bind].
  destruct (round_trip_tokens_run preferences (length L) L (le_n _) HL)
    as (ps & Hrun & Hcat & _).
  rewrite (reverse_convert_run _ _ _ Hrun), Hcat. reflexivity.
Qed.

(** X14: for every preferences argument, the round trip of a string of mapped
    letters is obtained key by key: the input is cut into the keys the forward
    loop matches (digraphs first), and each key is replaced by the token the
    reverse converter chooses for its symbol. *)
Theorem round_trip_by_tokens L preferences :
  Forall mapped L ->
  round_trip L preferences
  = Some (concat (map (resolve preferences) (tokenize L))).
Proof. exact (round_trip_resolve L preferences). Qed.

Lemma round_trip_by_tokens_witness :
  round_trip (u "Chalk") (Some {[ u "Z" := u "R" ]}) = Some (u "CHARC").
Proof.
  refine (eq_trans
            (round_trip_by_tokens (u "Chalk") (Some {[ u "Z" := u "R" ]}) _) _).
  - assert (E : u "Chalk" = [67; 104; 97; 108; 107]) by (vm_compute; reflexivity).
    rewrite E.
    repeat (constructor; [vm_compute; eexists; reflexivity|]). constructor.
  - vm_compute. reflexivity.
Defined.

(** ** Re-encoding what the default preferences decode *)

Lemma resolve_default k sym :
  dict_get k MAPPING = Some sym -> resolve (Some PREFERENCES) k = pref_key k.
Proof.
  intros H. unfold resolve. rewrite H.
  apply dict_get_In in H. vm_compute in H.
  repeat (destruct H as [H|H]; [injection H as <- <-; vm_compute; reflexivity|]).
  destruct H.
Qed.

Lemma pref_letter_range k : 65 <= k <= 90 -> 65 <= pref_letter k <= 90.
Proof.
  intros Hk. unfold pref_letter.
  destruct (Z.eqb_spec k 67), (Z.eqb_spec k 81), (Z.eqb_spec k 82),
    (Z.eqb_spec k 87), (Z.eqb_spec k 88); cbn [orb]; lia.
Qed.

Lemma pref_letter_inv k :
  pref_letter k <> 67 /\ (pref_letter k = 72 -> k = 72) /\
  (pref_letter k = 83 -> k = 83).
Proof.
  unfold pref_letter.
  destruct (Z.eqb_spec k 67), (Z.eqb_spec k 81), (Z.eqb_spec k 82),
    (Z.eqb_spec k 87), (Z.eqb_spec k 88); cbn [orb]; lia.
Qed.

Lemma single_piece_pref a k :
  letter_of a k -> single_piece (pref_letter k) = single_piece a.
Proof.
  intros [Ha Hk]. unfold single_piece.
  rewrite !upper_single, Ha, (upper_cp_letter _ (pref_letter_range k Hk)).
  pose proof (forall_letters
    (fun k => bool_decide (dict_get [pref_letter k] MAPPING = dict_get [k] MAPPING))
    eq_refl k Hk) as H.
  apply bool_decide_eq_true_1 in H. rewrite H.
  destruct (MAPPING_letter k Hk) as [sym ->]. reflexivity.
Qed.

Lemma digraph_letters a b sym :
  mapped a -> mapped b -> dict_get (upper [a; b]) MAPPING = Some sym ->
  exists ka, upper [a; b] = [ka; 72] /\ (ka = 67 \/ ka = 83) /\
             upper_cp a = [ka] /\ upper_cp b = [72].
Proof.
  intros Ha Hb H.
  destruct (mapped_letter _ Ha) as (ka & Hka & _).
  destruct (mapped_letter _ Hb) as (kb & Hkb & _).
  rewrite upper_pair, Hka, Hkb in *. cbn [app] in *.
  apply MAPPING_keys in H.
  destruct H as [H|[H|(c & H & _)]]; [| |discriminate H];
    injection H as -> ->; [exists 67|exists 83]; auto.
Qed.

(** The text given back under the default preferences starts with "H" only
    when the input does. *)
Lemma default_tokens_head b r :
  Forall mapped (b :: r) ->
  exists h rest,
    concat (map pref_key (tokenize (b :: r))) = h :: rest /\
    65 <= h <= 90 /\ (h = 72 -> upper_cp b = [72]).
Proof.
  intros HL. inversion HL as [|? ? Hb Hr]; subst.
  destruct (mapped_letter _ Hb) as (kb & Hkb & Hrb).
  assert (Hsingle : forall l,
            exists h rest, concat (pref_key (upper [b]) :: l) = h :: rest /\
                           65 <= h <= 90 /\ (h = 72 -> upper_cp b = [72])).
  { intros l. rewrite upper_single, Hkb. cbn [pref_key concat app].
    eexists _, _. split; [reflexivity|]. split; [apply pref_letter_range, Hrb|].
    intros H. apply pref_letter_inv in H. congruence. }
  cbn [tokenize]. destruct r as [|c r']; [apply Hsingle|].
  destruct (dict_get (upper [b; c]) MAPPING) as [sym|] eqn:E; [|apply Hsingle].
  inversion Hr as [|? ? Hc _]; subst.
  destruct (digraph_letters _ _ _ Hb Hc E) as (ka & -> & Hka & _).
  cbn [map pref_key concat app].
  eexists _, _. split; [reflexivity|]. split; lia.
Qed.

Lemma tokenize_cons2 a b r :
  tokenize (a :: b :: r) =
  match dict_get (upper [a; b]) MAPPING with
  | Some _ => upper [a; b] :: tokenize r
  | None => upper [a] :: tokenize (b :: r)
  end.
Proof. reflexivity. Qed.

Lemma convert_pieces_default : forall n L,
  (length L <= n)%nat -> Forall mapped L ->
  convert_pieces (concat (map pref_key (tokenize L))) = convert_pieces L.
Proof.
  induction n as [|n IH]; intros [|a r] Hn HL; cbn [length] in Hn; try lia;
    try reflexivity.
  inversion HL as [|? ? Ha Hr]; subst.
  destruct (mapped_letter _ Ha) as (ka & Hka & Hra).
  assert (Hsingle : forall rest,
            (forall h rest', rest = h :: rest' ->
               65 <= h <= 90 /\ ~ (ka = 83 /\ h = 72)) ->
            convert_pieces (pref_key (upper [a]) ++ rest)
            = single_piece a :: convert_pieces rest).
  { intros rest Hrest. rewrite upper_single, Hka. cbn [pref_key app].
    rewrite <- (single_piece_pref a ka (conj Hka Hra)).
    destruct rest as [|h rest']; [reflexivity|].
    destruct (Hrest h rest' eq_refl) as [Hh Hno].
    rewrite convert_pieces_cons2.
    destruct (dict_get (upper [pref_letter ka; h]) MAPPING) as [sym|] eqn:E;
      [|reflexivity].
    rewrite upper_pair, (upper_cp_letter _ (pref_letter_range ka Hra)),
      (upper_cp_letter _ Hh) in E.
    apply MAPPING_keys in E. pose proof (pref_letter_inv ka) as (P1 & _ & P3).
    destruct E as [E|[E|(c & E & _)]]; [| |discriminate E];
      injection E as E1 E2; [congruence|]. destruct Hno. auto. }
  destruct r as [|b r'].
  - change (tokenize [a]) with [upper [a]]. cbn [map concat].
    rewrite Hsingle; [reflexivity|discriminate].
  - cbn [length] in Hn. rewrite tokenize_cons2, convert_pieces_cons2.
    destruct (dict_get (upper [a; b]) MAPPING) as [sym|] eqn:E.
    + inversion Hr as [|? ? Hb Hr']; subst.
      destruct (digraph_letters _ _ _ Ha Hb E) as (k & Hk & Hk' & _).
      rewrite Hk in *. cbn [map concat pref_key app].
      assert (Hup : upper [k; 72] = [k; 72]).
      { destruct Hk' as [->| ->]; reflexivity. }
      rewrite convert_pieces_cons2, Hup, E. f_equal. apply IH; [lia|exact Hr'].
    + cbn [map concat]. rewrite Hsingle.
      * f_equal. apply IH; [cbn [length]; lia|exact Hr].
      * intros h rest' Hh.
        destruct (default_tokens_head b r' Hr) as (h' & rest2 & Hd & Hrange & H72).
        rewrite Hd in Hh. injection Hh as <- <-. split; [exact Hrange|].
        intros [-> ->]. specialize (H72 eq_refl).
        rewrite upper_pair, Hka, H72 in E. vm_compute in E. discriminate E.
Qed.

Lemma tokenize_keys : forall n L,
  (length L <= n)%nat -> Forall mapped L ->
  Forall (fun k => is_Some (dict_get k MAPPING)) (tokenize L).
Proof.
  induction n as [|n IH]; intros [|a r] Hn HL; cbn [length] in Hn; try lia;
    try constructor.
  inversion HL as [|? ? Ha Hr]; subst.
  destruct r as [|b r'].
  - constructor; [exact Ha|constructor].
  - cbn [length] in Hn. rewrite tokenize_cons2.
    destruct (dict_get (upper [a; b]) MAPPING) as [sym|] eqn:E.
    + constructor; [rewrite E; eexists; reflexivity|].
      apply IH; [lia|]. inversion Hr; assumption.
    + constructor; [exact Ha|]. apply IH; [cbn [length]; lia|exact Hr].
Qed.

Lemma map_resolve_default ks :
  Forall (fun k => is_Some (dict_get k MAPPING)) ks ->
  map (resolve (Some PREFERENCES)) ks = map pref_key ks.
Proof.
  induction 1 as [|k ks [sym Hk] _ IH]; [reflexivity|].
  cbn [map]. rewrite (resolve_default _ _ Hk), IH. reflexivity.
Qed.

(** X15: what [interactive] decodes re-encodes to the same text: for a string
    of mapped letters, converting it forward, back with the default preference
    table, and forward again gives the first conversion.  Under empty
    preferences this fails, for instance for "KH", which comes back as "CH"
    and re-encodes as the digraph. *)
Theorem default_preferences_reencode :
  (forall L, Forall mapped L ->
     exists t L', convert_text L = Some t /\
                  interactive_result t = Some L' /\
                  convert_text L' = Some t) /\
  (exists L t L', Forall mapped L /\ convert_text L = Some t /\
                  reverse_convert t (Some ∅) = Some L' /\
                  convert_text L' <> Some t).
Proof.
  split.
  - intros L HL.
    pose proof (round_trip_resolve L (Some PREFERENCES) HL) as HR.
    unfold round_trip in HR. rewrite convert_text_pieces in HR.
    cbn [mbind option_bind] in HR.
    rewrite (map_resolve_default _ (tokenize_keys (length L) L (le_n _) HL)) in HR.
    exists (concat (convert_pieces L)), (concat (map pref_key (tokenize L))).
    split; [apply convert_text_pieces|]. split; [exact HR|].
    rewrite convert_text_pieces, (convert_pieces_default (length L) L (le_n _) HL).
    reflexivity.
  - exists [75; 72], [12530; 88], [67; 72]. split; [|split; [|split]].
    + repeat constructor; vm_compute; eexists; reflexivity.
    + vm_compute. reflexivity.
    + vm_compute. reflexivity.
    + vm_compute. discriminate.
Qed.

Lemma default_preferences_reencode_witness :
  exists t L', convert_text [81; 117; 105; 99; 107] = Some t /\
               interactive_result t = Some L' /\
               convert_text L' = Some t.
Proof.
  apply (proj1 default_preferences_reencode [81; 117; 105; 99; 107]).
  repeat (constructor; [vm_compute; eexists; reflexivity|]). constructor.
Defined.

(** ** Letters that share a symbol *)

Lemma merge_letter_cases c :
  merge_letter c = c \/
  exists k k', upper_cp c = [k] /\ upper_cp (merge_letter c) = [k'] /\
               (k <> 67 /\ k <> 83 /\ k <> 72) /\
               (k' <> 67 /\ k' <> 83 /\ k' <> 72) /\
               single_piece (merge_letter c) = single_piece c.
Proof.
  destruct (Z.eqb_spec c 81) as [->|N1];
    [right; exists 81, 75; vm_compute; repeat split; congruence|].
  destruct (Z.eqb_spec c 113) as [->|N2];
    [right; exists 81, 75; vm_compute; repeat split; congruence|].
  destruct (Z.eqb_spec c 82) as [->|N3];
    [right; exists 82, 76; vm_compute; repeat split; congruence|].
  destruct (Z.eqb_spec c 114) as [->|N4];
    [right; exists 82, 76; vm_compute; repeat split; congruence|].
  destruct (Z.eqb_spec c 87) as [->|N5];
    [right; exists 87, 86; vm_compute; repeat split; congruence|].
  destruct (Z.eqb_spec c 119) as [->|N6];
    [right; exists 87, 86; vm_compute; repeat split; congruence|].
  destruct (Z.eqb_spec c 90) as [->|N7];
    [right; exists 90, 88; vm_compute; repeat split; congruence|].
  destruct (Z.eqb_spec c 122) as [->|N8];
    [right; exists 90, 88; vm_compute; repeat split; congruence|].
  left. unfold merge_letter.
  rewrite !(proj2 (Z.eqb_neq c _)) by assumption. reflexivity.
Qed.

Lemma pair_key_none_l k ub :
  k <> 67 -> k <> 83 -> ub <> [] -> dict_get (k :: ub) MAPPING = None.
Proof.
  intros H1 H2 Hne. destruct (dict_get (k :: ub) MAPPING) eqn:E; [|reflexivity].
  apply MAPPING_keys in E.
  destruct E as [E|[E|(c & E & _)]]; injection E; intros; congruence.
Qed.

Lemma pair_key_none_r ua k :
  ua <> [] -> k <> 72 -> dict_get (ua ++ [k]) MAPPING = None.
Proof.
  intros Hne Hk. destruct (dict_get (ua ++ [k]) MAPPING) eqn:E; [|reflexivity].
  apply MAPPING_keys in E.
  destruct ua as [|x [|y ua]]; [congruence| |];
    cbn [app] in E; destruct E as [E|[E|(c & E & _)]];
    try discriminate E; try (injection E; intros; congruence);
    injection E; intros E' _; destruct ua; discriminate E'.
Qed.

Lemma merge_pair a b :
  dict_get (upper [merge_letter a; merge_letter b]) MAPPING
  = dict_get (upper [a; b]) MAPPING.
Proof.
  rewrite !upper_pair.
  destruct (merge_letter_cases a) as [->|(k & k' & Hk & Hk' & N & N' & _)].
  - destruct (merge_letter_cases b) as [->|(kb & kb' & Hb & Hb' & Nb & Nb' & _)];
      [reflexivity|].
    rewrite Hb, Hb'.
    rewrite !pair_key_none_r by (apply upper_cp_nonempty || tauto). reflexivity.
  - rewrite Hk, Hk'. cbn [app].
    rewrite !pair_key_none_l by (apply upper_cp_nonempty || tauto). reflexivity.
Qed.

Lemma merge_single a : single_piece (merge_letter a) = single_piece a.
Proof.
  destruct (merge_letter_cases a) as [->|(k & k' & _ & _ & _ & _ & H)];
    [reflexivity|exact H].
Qed.

Lemma convert_pieces_merge : forall n s,
  (length s <= n)%nat ->
  convert_pieces (map merge_letter s) = convert_pieces s.
Proof.
  induction n as [|n IH]; intros [|a r] Hn; cbn [length] in Hn; try lia;
    try reflexivity.
  destruct r as [|b r'].
  - cbn [map convert_pieces]. rewrite merge_single. reflexivity.
  - cbn [map length] in *. rewrite !convert_pieces_cons2, merge_pair, merge_single.
    destruct (dict_get (upper [a; b]) MAPPING).
    + f_equal. apply IH. lia.
    + f_equal. apply (IH (b :: r')). cbn [length]. lia.
Qed.

(** X16: letters that share a symbol without taking part in a digraph are
    interchangeable: replacing Q by K, R by L, W by V and Z by X, in either
    case, anywhere in any input, does not change the result of the forward
    converter. *)
Theorem convert_text_merge s :
  convert_text (map merge_letter s) = convert_text s.
Proof.
  rewrite !convert_text_pieces, (convert_pieces_merge (length s) s (le_n _)).
  reflexivity.
Qed.
